(** * The workgroup creation pass of pocl, embedded in Rocq

    The pass (an LLVM [ModulePass]) turns every OpenCL kernel of a module
    into a work-group function: it inlines, runs barrier tail replication
    and work-item replication on the kernel, then synthesises a launcher
    [_<kernel>] and a type-erased entry point that unpacks an array of
    argument pointers.

    The embedding is shallow: LLVM's IR objects are records and inductive
    types, the [IRBuilder] is a block threaded through the builder calls,
    and the pass itself runs in a state-and-error monad whose state holds
    the globals the C++ code mutates ([LocalSize], the header stream, the
    module). *)

From Stdlib Require Import ZArith Lia Ascii String.
From stdpp Require Import base strings list gmap pretty.

#[local] Set Warnings "-register-all".

Local Open Scope Z_scope.

(** ** LLVM types, values and instructions *)

Module LLVM.

(** [llvm::Type], as far as the pass builds or inspects it. Integer types
    are signless, as in LLVM; pointers carry their address space. *)
Inductive LType : Type :=
| VoidTy
| IntegerTy (bits : N)
| FloatTy
| DoubleTy
| PointerTy (elt : LType) (addrspace : N)
| ArrayTy (elt : LType) (num : N)
| StructTy (elts : list LType)
| FunctionTy (ret : LType) (params : list LType).

(** Structural equality of types (LLVM compares uniqued pointers). *)
Fixpoint LType_eqb (a b : LType) {struct a} : bool :=
  let fix all2 (xs ys : list LType) {struct xs} : bool :=
    match xs, ys with
    | [], [] => true
    | x :: xs', y :: ys' => LType_eqb x y && all2 xs' ys'
    | _, _ => false
    end in
  match a, b with
  | VoidTy, VoidTy => true
  | IntegerTy n, IntegerTy m => N.eqb n m
  | FloatTy, FloatTy => true
  | DoubleTy, DoubleTy => true
  | PointerTy t n, PointerTy u m => LType_eqb t u && N.eqb n m
  | ArrayTy t n, ArrayTy u m => LType_eqb t u && N.eqb n m
  | StructTy ts, StructTy us => all2 ts us
  | FunctionTy r ts, FunctionTy s us => LType_eqb r s && all2 ts us
  | _, _ => false
  end.

Definition getPointerTo (t : LType) : LType := PointerTy t 0.

(** [GlobalValue::LinkageTypes] (the ones that matter here). *)
Inductive LinkageTypes : Type :=
| ExternalLinkage
| LinkOnceAnyLinkage
| WeakAnyLinkage
| InternalLinkage
| PrivateLinkage
| ExternalWeakLinkage
| CommonLinkage.

Definition isLocalLinkage (l : LinkageTypes) : bool :=
  match l with
  | InternalLinkage | PrivateLinkage => true
  | _ => false
  end.

(** Function and parameter attributes set by the pass. *)
Inductive Attribute : Type := NoInline | NoAlias.

(** Index of an attribute set: [0] is the return value, [i + 1] the
    [i]-th parameter, [~0U] the function itself. *)
Inductive AttrIndex : Type :=
| ReturnIndex
| ParamIndex (i : nat)      (* LLVM index [i + 1] *)
| FunctionIndex.

Definition attrIndex (n : nat) : AttrIndex :=
  match n with
  | O => ReturnIndex
  | S i => ParamIndex i
  end.

(** Values the builder calls of the pass handle. [Arg i] is the [i]-th
    formal argument of the function under construction, [Inst i] the
    result of the [i]-th instruction of its block, [GlobalRef] a global
    variable or function of the module, named. *)
Inductive Value : Type :=
| Arg (i : nat)
| Inst (i : nat)
| ConstantInt (bits : N) (v : Z)
| GlobalRef (name : string).

Inductive Instruction : Type :=
| GetElementPtr (inbounds : bool) (ptr : Value) (idx : list Value)
| Load (ptr : Value)
| Store (val ptr : Value)
| BitCast (val : Value) (dest : LType)
| Call (callee : string) (args : list Value)
| RetVoid
| Other (opcode : string) (operands : list Value).

Definition BasicBlock : Type := list Instruction.

Record Function : Type := mkFunction {
  fname : string;
  fret : LType;
  fparams : list LType;
  flinkage : LinkageTypes;
  fattrs : list (AttrIndex * Attribute);
  fblocks : list BasicBlock
}.

Definition isDeclaration (f : Function) : bool :=
  match fblocks f with
  | [] => true
  | _ => false
  end.

Definition setLinkage (l : LinkageTypes) (f : Function) : Function :=
  mkFunction (fname f) (fret f) (fparams f) l (fattrs f) (fblocks f).

Definition addAttribute (i : AttrIndex) (a : Attribute) (f : Function)
  : Function :=
  mkFunction (fname f) (fret f) (fparams f) (flinkage f)
             ((i, a) :: fattrs f) (fblocks f).

Definition addFnAttr (a : Attribute) (f : Function) : Function :=
  addAttribute FunctionIndex a f.

(** [F->setDoesNotAlias(n)]: [NoAlias] at LLVM index [n]. *)
Definition setDoesNotAlias (n : nat) (f : Function) : Function :=
  addAttribute (attrIndex n) NoAlias f.

Definition attr_eqb (a b : Attribute) : bool :=
  match a, b with
  | NoInline, NoInline | NoAlias, NoAlias => true
  | _, _ => false
  end.

Definition index_eqb (i j : AttrIndex) : bool :=
  match i, j with
  | ReturnIndex, ReturnIndex | FunctionIndex, FunctionIndex => true
  | ParamIndex n, ParamIndex m => Nat.eqb n m
  | _, _ => false
  end.

Definition hasAttribute (i : AttrIndex) (a : Attribute) (f : Function)
  : bool :=
  existsb (fun p => index_eqb (fst p) i && attr_eqb (snd p) a) (fattrs f).



Record GlobalVariable : Type := mkGlobalVariable {
  gname : string;
  gtype : LType;
  glinkage : LinkageTypes
}.

(** Operands of metadata nodes. *)
Inductive MDOperand : Type :=
| MDFunction (name : string)
| MDConstantInt (bits : N) (zext : Z)     (* value, zero-extended *)
| MDNull.

Definition MDNode : Type := list MDOperand.

(** [llvm::Module]: its functions, global variables and named metadata,
    and the counter [LastUnique] of its symbol table, from which the
    table takes the numbers it appends to names already in use. *)
Record Module : Type := mkModule {
  FunctionList : list Function;
  GlobalList : list GlobalVariable;
  NamedMDList : list (string * list MDNode);
  LastUnique : nat
}.

Definition getFunction (M : Module) (name : string) : option Function :=
  find (fun f => String.eqb (fname f) name) (FunctionList M).

Definition findGlobal (M : Module) (name : string) : option GlobalVariable :=
  find (fun g => String.eqb (gname g) name) (GlobalList M).

(** The module's symbol table holds functions and global variables. *)
Definition nameTaken (M : Module) (name : string) : bool :=
  match getFunction M name, findGlobal M name with
  | None, None => false
  | _, _ => true
  end.

(** [M.getGlobalVariable(Name)] with its default [AllowInternal = false]:
    the symbol must be a global variable (not a function) and must not
    have local linkage. *)
Definition getGlobalVariable (M : Module) (name : string)
  : option GlobalVariable :=
  match getFunction M name with
  | Some _ => None
  | None =>
      match findGlobal M name with
      | Some g => if isLocalLinkage (glinkage g) then None else Some g
      | None => None
      end
  end.

Definition getNamedMetadata (M : Module) (name : string)
  : option (list MDNode) :=
  snd <$> find (fun p => String.eqb (fst p) name) (NamedMDList M).

Definition setFunctionList (fs : list Function) (M : Module) : Module :=
  mkModule fs (GlobalList M) (NamedMDList M) (LastUnique M).

Definition setLastUnique (n : nat) (M : Module) : Module :=
  mkModule (FunctionList M) (GlobalList M) (NamedMDList M) n.

(** A function pass changes the function in place; functions are
    identified by name, which the symbol table keeps unique. *)
Definition replaceFunction (f : Function) (M : Module) : Module :=
  setFunctionList
    (map (fun g => if String.eqb (fname g) (fname f) then f else g)
         (FunctionList M)) M.

Definition pushFunction (f : Function) (M : Module) : Module :=
  setFunctionList (FunctionList M ++ [f]) M.

(** *** The symbol table

    The names of the module's functions and global variables. *)
Definition symbols (M : Module) : list string :=
  map fname (FunctionList M) ++ map gname (GlobalList M).

(** [ValueSymbolTable::reinsertValue] on a name that is in use: the
    table appends [++LastUnique], in decimal, to the name asked for, and
    tries again until the result is free. [fuel] bounds the candidates
    that are tested; with as many as the table has symbols the one
    returned is free ([uniqueName_free]). *)
Fixpoint makeUnique (fuel : nat) (M : Module) (name : string) (last : nat)
  : string * nat :=
  let last := S last in
  let unique := name +:+ pretty last in
  match fuel with
  | O => (unique, last)
  | S fuel' =>
      if nameTaken M unique then makeUnique fuel' M name last
      else (unique, last)
  end.

(** The name a new global value gets that asks for [name], and the
    counter afterwards: [name] itself when it is free. *)
Definition uniqueName (M : Module) (name : string) : string * nat :=
  if nameTaken M name
  then makeUnique (length (symbols M)) M name (LastUnique M)
  else (name, LastUnique M).

(** [M.getNamedValue(Name)]: the global value of that name. *)
Inductive GlobalValue : Type :=
| GVFunction (F : Function)
| GVVariable (g : GlobalVariable).

Definition getNamedValue (M : Module) (name : string) : option GlobalValue :=
  match getFunction M name with
  | Some F => Some (GVFunction F)
  | None => GVVariable <$> findGlobal M name
  end.

(** What [getOrInsertFunction] returns: a function, or a constant
    expression that casts a global value to another type. *)
Inductive Constant : Type :=
| CFunction (F : Function)
| CBitCast (v : GlobalValue) (dest : LType).

(** [dyn_cast<Function>]. *)
Definition dyn_cast_Function (c : Constant) : option Function :=
  match c with
  | CFunction F => Some F
  | CBitCast _ _ => None
  end.

(** *** The IRBuilder

    The builder appends to the block it was created on; each call
    returns the extended block and the value it created. *)
Definition IRBuilder : Type := BasicBlock.

Definition Insert (i : Instruction) (b : IRBuilder) : IRBuilder * Value :=
  (b ++ [i], Inst (length b)).

Definition CreateGEP (ptr idx : Value) (b : IRBuilder) :=
  Insert (GetElementPtr false ptr [idx]) b.

(** [CreateStructGEP(Ptr, Idx)] is [CreateConstInBoundsGEP2_32(Ptr, 0, Idx)]. *)
Definition CreateStructGEP (ptr : Value) (idx : nat) (b : IRBuilder) :=
  Insert (GetElementPtr true ptr
            [ConstantInt 32 0; ConstantInt 32 (Z.of_nat idx)]) b.

Definition CreateLoad (ptr : Value) (b : IRBuilder) := Insert (Load ptr) b.

Definition CreateStore (val ptr : Value) (b : IRBuilder) : IRBuilder :=
  fst (Insert (Store val ptr) b).

(** [CreateBitCast(V, DestTy)] emits nothing and returns [V] when [V]
    already has type [DestTy] ([srcTy] is the type of [V]). *)
Definition CreateBitCast (val : Value) (srcTy destTy : LType)
    (b : IRBuilder) : IRBuilder * Value :=
  if LType_eqb srcTy destTy then (b, val) else Insert (BitCast val destTy) b.

Definition CreateCall (callee : string) (args : list Value) (b : IRBuilder)
  : IRBuilder :=
  fst (Insert (Call callee args) b).

Definition CreateRetVoid (b : IRBuilder) : IRBuilder :=
  fst (Insert RetVoid b).

End LLVM.

Export LLVM.

(** ** Results and the monad of the pass *)

(** Ways in which the C++ code leaves its defined behaviour or stops. *)
Inductive error : Type :=
| AssertionFailed (condition : string)   (* [assert(condition)] fails *)
| NullMetadata (name : string)   (* member call on a null [NamedMDNode] *)
| BadCast                        (* [cast<>] on a value of another class *)
| NoOperand                      (* [getOperand] past the operands *)
| OutOfRange                     (* [LocalSize[i]] past the list's end *)
| EmptyArguments                 (* [back()] of an empty vector *)
| PassFailed (kernel : string).  (* a function pass threw *)

Inductive result (A : Type) : Type :=
| Ok (a : A)
| Err (e : error).
Arguments Ok {A} a.
Arguments Err {A} e.

Definition isOk {A} (r : result A) : bool :=
  match r with Ok _ => true | Err _ => false end.

Definition bindR {A B} (r : result A) (k : A -> result B) : result B :=
  match r with
  | Ok a => k a
  | Err e => Err e
  end.

Definition fromOption {A} (e : error) (o : option A) : result A :=
  match o with
  | Some a => Ok a
  | None => Err e
  end.

(** ** The context record *)

Module TypeBuilder.

Definition i (w : N) : LType := IntegerTy w.

(** [TypeBuilder<PoclContext, xcompile>::get]. *)
Definition PoclContext : LType :=
  StructTy [ i 32; ArrayTy (i 32) 3; ArrayTy (i 32) 3; ArrayTy (i 32) 3 ].

(** [enum Fields]. *)
Inductive Fields : Type := WORK_DIM | NUM_GROUPS | GROUP_ID | GLOBAL_OFFSET.

Definition fieldIndex (f : Fields) : nat :=
  match f with
  | WORK_DIM => 0
  | NUM_GROUPS => 1
  | GROUP_ID => 2
  | GLOBAL_OFFSET => 3
  end.

(** [TypeBuilder<PoclContext*, true>::get]. *)
Definition PoclContextPtr : LType := getPointerTo PoclContext.

(** The parameters of the function type that [TypeBuilder] gives for a
    [void] function of an array of [i8] pointers and a [PoclContext]
    pointer: as a parameter type, the array of [i8 *] is the pointer
    [i8 **]. *)
Definition workgroupParams : list LType :=
  [ getPointerTo (getPointerTo (i 8)); PoclContextPtr ].

End TypeBuilder.

(** ** Launcher and workgroup synthesis *)

(** [noaliasArguments]: argument 0 is the return type, hence [i + 1]. *)
Fixpoint noaliasArguments_loop (i : nat) (count : nat) (F : Function)
  : Function :=
  match count with
  | O => F
  | S count' => noaliasArguments_loop (S i) count' (setDoesNotAlias (i + 1) F)
  end.

Definition noaliasArguments (F : Function) : Function :=
  noaliasArguments_loop 0 (length (fparams F)) F.

(** [Function::Create(ft, linkage, name, &M)]: the new function, without
    attributes or blocks, is appended to the functions of [M]. It has the
    name asked for when no symbol of the module has it; otherwise the
    symbol table gives it that name followed by a number. *)
Definition Function_Create (ret : LType) (params : list LType)
    (l : LinkageTypes) (name : string) (M : Module) : Function * Module :=
  let '(unique, last) := uniqueName M name in
  let F := mkFunction unique ret params l [] [] in
  (F, pushFunction F (setLastUnique last M)).

(** [M.getOrInsertFunction(name, ft)]. Without a symbol of that name, a
    new function with external linkage is appended to the module. With
    one, the module stays as it is: the result is the symbol itself when
    it is a function of the type asked for, and a cast of the symbol to
    a pointer to that type otherwise. *)
Definition getOrInsertFunction (name : string) (ret : LType)
    (params : list LType) (M : Module) : Constant * Module :=
  match getNamedValue M name with
  | None =>
      let New := mkFunction name ret params ExternalLinkage [] [] in
      (CFunction New, pushFunction New M)
  | Some (GVFunction F) =>
      if LType_eqb (FunctionTy (fret F) (fparams F)) (FunctionTy ret params)
      then (CFunction F, M)
      else (CBitCast (GVFunction F) (getPointerTo (FunctionTy ret params)), M)
  | Some (GVVariable g) =>
      (CBitCast (GVVariable g) (getPointerTo (FunctionTy ret params)), M)
  end.

(** [BasicBlock::Create(ctx, "", F)] and the instructions built into it. *)
Definition appendBlock (b : BasicBlock) (F : Function) : Function :=
  mkFunction (fname F) (fret F) (fparams F) (flinkage F) (fattrs F)
             (fblocks F ++ [b]).

(** The launcher's leading arguments, collected while [ai] walks over
    them; [ai] ends on the context argument. *)
Definition launcherArguments (n : nat) : list Value := map Arg (seq 0 n).

Definition copyContextField (M : Module) (global : string)
    (field : TypeBuilder.Fields) (ai : Value) (b : IRBuilder) : IRBuilder :=
  match getGlobalVariable M global with
  | Some g =>
      let '(b, ptr) := CreateStructGEP ai (TypeBuilder.fieldIndex field) b in
      let '(b, v) := CreateLoad ptr b in
      CreateStore v (GlobalRef (gname g)) b
  | None => b
  end.

Definition launcherBody (M : Module) (F : Function) : BasicBlock :=
  let n := length (fparams F) in
  let arguments := launcherArguments n in
  let ai := Arg n in
  let b : IRBuilder := [] in
  let b := copyContextField M "_group_id" TypeBuilder.GROUP_ID ai b in
  let b := copyContextField M "_num_groups" TypeBuilder.NUM_GROUPS ai b in
  let b := CreateCall (fname F) arguments b in
  CreateRetVoid b.

(** [createLauncher]: returns the launcher and the module that now
    holds it. The launcher is in the module from [Function::Create] on,
    so the two globals are looked up in the module that has it. *)
Definition createLauncher (M : Module) (F : Function) : Function * Module :=
  let v := fparams F ++ [TypeBuilder.PoclContextPtr] in
  let '(L, M) := Function_Create VoidTy v ExternalLinkage ("_" +:+ fname F) M in
  let L := appendBlock (launcherBody M F) L in
  (L, replaceFunction L M).

(** The loop of [createWorkgroup] over the parameters of [F]. *)
Fixpoint workgroupLoads (ts : list LType) (i : nat) (ai : Value)
    (b : IRBuilder) (arguments : list Value) : IRBuilder * list Value :=
  match ts with
  | [] => (b, arguments)
  | t :: ts' =>
      let '(b, gep) := CreateGEP ai (ConstantInt 32 (Z.of_nat i)) b in
      let '(b, pointer) := CreateLoad gep b in
      let '(b, bc) :=
        CreateBitCast pointer (getPointerTo (TypeBuilder.i 8))
                      (getPointerTo t) b in
      let '(b, v) := CreateLoad bc b in
      workgroupLoads ts' (S i) ai b (arguments ++ [v])
  end.

(** [arguments.back() = x]. *)
Definition setBack (x : Value) (arguments : list Value)
  : result (list Value) :=
  match arguments with
  | [] => Err EmptyArguments
  | _ => Ok (removelast arguments ++ [x])
  end.

Definition workgroupBody (F : Function) : result BasicBlock :=
  let ai := Arg 0 in
  let '(b, arguments) := workgroupLoads (fparams F) 0 ai [] [] in
  bindR (setBack (Arg 1) arguments)
    (fun arguments => Ok (CreateRetVoid (CreateCall (fname F) arguments b))).

(** [createWorkgroup]: the module as the function leaves it, also when
    it does not return. The block is appended to the function that
    [getOrInsertFunction] gave, a new one or one the module had; a cast
    is no function, and the assertion fails. *)
Definition createWorkgroup (M : Module) (F : Function) : Module * result unit :=
  let '(c, M) := getOrInsertFunction (fname F +:+ "_workgroup") VoidTy
                   TypeBuilder.workgroupParams M in
  match dyn_cast_Function c with
  | None => (M, Err (AssertionFailed "workgroup != NULL"))
  | Some workgroup =>
      match workgroupBody F with
      | Ok body => (replaceFunction (appendBlock body workgroup) M, Ok tt)
      | Err e =>
          let b := fst (workgroupLoads (fparams F) 0 (Arg 0) [] []) in
          (replaceFunction (appendBlock b workgroup) M, Err e)
      end
  end.

(** ** The pass *)

(** The passes that [runOnModule] calls and that live elsewhere:
    LLVM's [BasicInliner], and the two function passes of this project,
    barrier tail replication and work-item replication. A function pass
    rewrites the body of the function it is given, in place; [None]
    stands for a pass that does not return (it throws), and the function
    then has the blocks the pass had given it by then, [BTR_abandoned]
    and [WR_abandoned]. Work-item replication reads the module (in
    [doInitialization]) and the global [LocalSize]. *)
Record Passes : Type := mkPasses {
  BasicInliner_inlineFunctions : list Function -> list Function;
  BTR_runOnFunction : Function -> option (list BasicBlock);
  WR_runOnFunction : Module -> list Z -> Function -> option (list BasicBlock);
  BTR_abandoned : Function -> list BasicBlock;
  WR_abandoned : Module -> list Z -> Function -> list BasicBlock
}.

(** What the pass reads and writes besides its arguments: the command
    line list [LocalSize], the text written to the header stream [out],
    and the module. [WR_calls] records, for every call of work-item
    replication, the kernel and the value of [LocalSize] it ran under. *)
Record State : Type := mkState {
  LocalSize : list Z;
  out : string;
  module : Module;
  WR_calls : list (string * list Z)
}.

Definition Pass (A : Type) : Type := State -> State * result A.

Definition ret {A} (a : A) : Pass A := fun s => (s, Ok a).

Definition bind {A B} (m : Pass A) (k : A -> Pass B) : Pass B :=
  fun s =>
    match m s with
    | (s', Ok a) => k a s'
    | (s', Err e) => (s', Err e)
    end.

Definition lift {A} (r : result A) : Pass A := fun s => (s, r).

Notation "x <- m ;; k" := (bind m (fun x => k))
  (at level 100, m at next level, right associativity).
Notation "m ;; k" := (bind m (fun _ => k))
  (at level 100, right associativity).

Fixpoint forEach {A} (xs : list A) (body : A -> Pass unit) : Pass unit :=
  match xs with
  | [] => ret tt
  | x :: xs' => body x ;; forEach xs' body
  end.

Definition getModule : Pass Module := fun s => (s, Ok (module s)).

Definition setModule (M : Module) : Pass unit :=
  fun s => (mkState (LocalSize s) (out s) M (WR_calls s), Ok tt).

(** [raw_fd_ostream out(Header.c_str(), ErrorInfo)]: the file is created
    or truncated. *)
Definition openHeader : Pass unit :=
  fun s => (mkState (LocalSize s) "" (module s) (WR_calls s), Ok tt).

(** [out << text]. *)
Definition write (text : string) : Pass unit :=
  fun s => (mkState (LocalSize s) (out s +:+ text) (module s) (WR_calls s),
            Ok tt).

(** [LocalSize[i]] as an rvalue and as the target of an assignment. *)
Definition readLocalSize (i : nat) : Pass Z :=
  fun s => (s, fromOption OutOfRange (LocalSize s !! i)).

Definition writeLocalSize (i : nat) (v : Z) : Pass unit :=
  fun s =>
    if decide (i < length (LocalSize s))%nat
    then (mkState (<[i := v]> (LocalSize s)) (out s) (module s) (WR_calls s),
          Ok tt)
    else (s, Err OutOfRange).

Definition recordCall (kernel : string) : Pass unit :=
  fun s => (mkState (LocalSize s) (out s) (module s)
                    (WR_calls s ++ [(kernel, LocalSize s)]), Ok tt).

Definition nl : string := String "010"%char EmptyString.

(** Conversion of a 64-bit unsigned value to [int]. *)
Definition to_int (x : Z) : Z := (x + 2 ^ 31) mod 2 ^ 32 - 2 ^ 31.

(** [ConstantInt::getLimitedValue()] of a constant with zero-extended
    value [zext]: the value, saturated at the largest [uint64_t]. *)
Definition getLimitedValue (zext : Z) : Z := Z.min zext (2 ^ 64 - 1).

Definition getOperand (node : MDNode) (i : nat) : result MDOperand :=
  fromOption NoOperand (node !! i).

(** [cast<Function>(v)]: the function the operand points to. *)
Definition castFunction (v : MDOperand) : Pass Function :=
  fun s =>
    match v with
    | MDFunction name => (s, fromOption BadCast (getFunction (module s) name))
    | _ => (s, Err BadCast)
    end.

(** [cast<ConstantInt>(node->getOperand(i))->getLimitedValue()]. *)
Definition limitedOperand (node : MDNode) (i : nat) : result Z :=
  bindR (getOperand node i)
    (fun v =>
       match v with
       | MDConstantInt _ zext => Ok (getLimitedValue zext)
       | _ => Err BadCast
       end).

(** [v == K] for an operand [v] and the kernel [K]. *)
Definition isKernel (v : MDOperand) (K : Function) : bool :=
  match v with
  | MDFunction name => String.eqb name (fname K)
  | _ => false
  end.

(** The body of the loop over the operands of [SizeInfo]. *)
Definition overrideLocalSize (K : Function) (KernelSizeInfo : MDNode)
  : Pass unit :=
  v <- lift (getOperand KernelSizeInfo 0) ;;
  if isKernel v K then
    x <- lift (limitedOperand KernelSizeInfo 1) ;;
    writeLocalSize 0 (to_int x) ;;
    y <- lift (limitedOperand KernelSizeInfo 2) ;;
    writeLocalSize 1 (to_int y) ;;
    z <- lift (limitedOperand KernelSizeInfo 3) ;;
    writeLocalSize 2 (to_int z)
  else ret tt.

Definition setBlocks (bs : list BasicBlock) (F : Function) : Function :=
  mkFunction (fname F) (fret F) (fparams F) (flinkage F) (fattrs F) bs.

(** Run a function pass on [K], in place: whether the pass returns or
    not, the module has [K] with the blocks the pass left. *)
Definition runFunctionPass (pass : Function -> option (list BasicBlock))
    (abandoned : Function -> list BasicBlock) (K : Function) : Pass Function :=
  fun s =>
    match pass K with
    | Some bs =>
        let K' := setBlocks bs K in
        (mkState (LocalSize s) (out s) (replaceFunction K' (module s))
                 (WR_calls s), Ok K')
    | None =>
        let K' := setBlocks (abandoned K) K in
        (mkState (LocalSize s) (out s) (replaceFunction K' (module s))
                 (WR_calls s), Err (PassFailed (fname K)))
    end.

Definition runWR (P : Passes) (K : Function) : Pass Function :=
  recordCall (fname K) ;;
  fun s => runFunctionPass (WR_runOnFunction P (module s) (LocalSize s))
             (WR_abandoned P (module s) (LocalSize s)) K s.

(** A call that works on the module in place. *)
Definition onModule {A} (f : Module -> Module * result A) : Pass A :=
  fun s =>
    let '(M, r) := f (module s) in
    (mkState (LocalSize s) (out s) M (WR_calls s), r).

(** The filter of the kernel loop: a filter is configured and it is not
    the name of [K]. *)
Definition skipped (Kernel : string) (K : Function) : bool :=
  negb (String.eqb Kernel "") && negb (String.eqb (fname K) Kernel).

Definition headerLines (name : string) : string :=
  ("#define _" +:+ name +:+ "_NUM_LOCALS 0" +:+ nl) +:+
  ("#define _" +:+ name +:+ "_LOCAL_SIZE {}" +:+ nl).

(** The body of the loop over the operands of [Kernels]. *)
Definition compileKernel (P : Passes) (Kernel : string)
    (SizeInfo : option (list MDNode)) (node : MDNode) : Pass unit :=
  v <- lift (getOperand node 0) ;;
  K <- castFunction v ;;
  if skipped Kernel K then ret tt
  else
    write ("#define _" +:+ fname K +:+ "_NUM_LOCALS 0" +:+ nl) ;;
    write ("#define _" +:+ fname K +:+ "_LOCAL_SIZE {}" +:+ nl) ;;
    K <- runFunctionPass (BTR_runOnFunction P) (BTR_abandoned P) K ;;
    Old0 <- readLocalSize 0 ;;
    Old1 <- readLocalSize 1 ;;
    Old2 <- readLocalSize 2 ;;
    match SizeInfo with
    | Some nodes => forEach nodes (overrideLocalSize K)
    | None => ret tt
    end ;;
    K <- runWR P K ;;
    writeLocalSize 0 Old0 ;;
    writeLocalSize 1 Old1 ;;
    writeLocalSize 2 Old2 ;;
    M <- getModule ;;
    let LM := createLauncher M K in
    let L := noaliasArguments (addFnAttr NoInline (fst LM)) in
    setModule (replaceFunction L (snd LM)) ;;
    onModule (fun M => createWorkgroup M L).

(** The first loop of [runOnModule] and the inliner run. *)
Definition internalize (F : Function) : Function :=
  if isDeclaration F then F else setLinkage InternalLinkage F.

Definition normalize (P : Passes) (M : Module) : Module :=
  setFunctionList
    (BasicInliner_inlineFunctions P (map internalize (FunctionList M))) M.

(** [Workgroup::runOnModule], for the command line option [Kernel]. *)
Definition runOnModule (P : Passes) (Kernel : string) : Pass bool :=
  M <- getModule ;;
  setModule (normalize P M) ;;
  openHeader ;;
  M <- getModule ;;
  let SizeInfo := getNamedMetadata M "opencl.kernel_wg_size_info" in
  Kernels <- lift (fromOption (NullMetadata "opencl.kernels")
                     (getNamedMetadata M "opencl.kernels")) ;;
  forEach Kernels (compileKernel P Kernel SizeInfo) ;;
  ret true.

(** The state in which the pass starts: the configured local size, an
    empty header file, the module to compile. *)
Definition initState (localSize : list Z) (M : Module) : State :=
  mkState localSize "" M [].

(** ** Work-item replication

    The pass calls [WorkitemReplication], whose code is in another file
    of the project. What follows models it from its specification, for
    kernels without barriers, over a small kernel language with private
    variables, buffers passed as kernel arguments, branches and loops. *)

Module WorkitemReplication.

Inductive binop : Type := Add | Sub | Mul | Lt | Eq.

(** Kernel expressions over private variables named in [R]. [LocalId d]
    is [get_local_id(d)]; [LoadBuf b e] reads cell [e] of the buffer that
    is kernel argument [b]. *)
Inductive expr (R : Type) : Type :=
| Const (z : Z)
| Var (r : R)
| LocalId (d : nat)
| LoadBuf (b : nat) (idx : expr R)
| BinOp (op : binop) (e1 e2 : expr R).
Arguments Const {R} z.
Arguments Var {R} r.
Arguments LocalId {R} d.
Arguments LoadBuf {R} b idx.
Arguments BinOp {R} op e1 e2.

Inductive cmd (R : Type) : Type :=
| Skip
| Assign (r : R) (e : expr R)
| StoreBuf (b : nat) (idx e : expr R)
| Seq (c1 c2 : cmd R)
| If (e : expr R) (c1 c2 : cmd R)
| While (e : expr R) (c : cmd R).
Arguments Skip {R}.
Arguments Assign {R} r e.
Arguments StoreBuf {R} b idx e.
Arguments Seq {R} c1 c2.
Arguments If {R} e c1 c2.
Arguments While {R} e c.

(** Buffer contents: cell [i] of buffer [b]; cells never written read 0. *)
Abbreviation memory := (gmap (nat * Z) Z).

(** A local id, as the triple of its components. *)
Definition lid : Type := Z * Z * Z.

Definition component (l : lid) (d : nat) : Z :=
  match d with
  | 0%nat => fst (fst l)
  | 1%nat => snd (fst l)
  | 2%nat => snd l
  | _ => 0
  end.

Definition evalBinop (op : binop) (a b : Z) : Z :=
  match op with
  | Add => a + b
  | Sub => a - b
  | Mul => a * b
  | Lt => if Z.ltb a b then 1 else 0
  | Eq => if Z.eqb a b then 1 else 0
  end.

Section Semantics.

Context {R : Type} `{EqDecision R}.

Definition regs : Type := R -> Z.

Definition setReg (r : R) (v : Z) (rho : regs) : regs :=
  fun r' => if decide (r' = r) then v else rho r'.

Fixpoint eval (l : lid) (rho : regs) (mu : memory) (e : expr R) : Z :=
  match e with
  | Const z => z
  | Var r => rho r
  | LocalId d => component l d
  | LoadBuf b idx => default 0 (mu !! (b, eval l rho mu idx))
  | BinOp op e1 e2 => evalBinop op (eval l rho mu e1) (eval l rho mu e2)
  end.

(** A loop that runs [body] while [continue] holds, for at most [k]
    iterations; [None] when [k] iterations do not end it or [body]
    yields [None]. *)
Fixpoint whileLoop {T : Type} (continue : T -> bool) (body : T -> option T)
    (k : nat) (st : T) : option T :=
  match k with
  | O => None
  | S k' =>
      if continue st
      then match body st with
           | Some st' => whileLoop continue body k' st'
           | None => None
           end
      else Some st
  end.

(** Execution under the local id [l]; every loop may take at most [fuel]
    iterations, and a run that needs more yields [None]. *)
Fixpoint exec (fuel : nat) (l : lid) (c : cmd R) (st : regs * memory)
    {struct c} : option (regs * memory) :=
  match c with
  | Skip => Some st
  | Assign r e => Some (setReg r (eval l (fst st) (snd st) e) (fst st), snd st)
  | StoreBuf b idx e =>
      Some (fst st,
            <[(b, eval l (fst st) (snd st) idx) := eval l (fst st) (snd st) e]>
              (snd st))
  | Seq c1 c2 =>
      match exec fuel l c1 st with
      | Some st' => exec fuel l c2 st'
      | None => None
      end
  | If e c1 c2 =>
      if Z.eqb (eval l (fst st) (snd st) e) 0
      then exec fuel l c2 st
      else exec fuel l c1 st
  | While e body =>
      whileLoop (fun st => negb (Z.eqb (eval l (fst st) (snd st) e) 0))
                (exec fuel l body) fuel st
  end.

End Semantics.

(** Modelled from the spec: the clone of a region for one work-item.
    [WorkitemReplication.cc] is not among the sources. Per the
    specification, within a region clone the definitions of per-work-item
    state (the local id, private variables and what is computed from
    them) are renamed to that clone's private copies, while references to
    kernel arguments are not cloned. Clone [w] gets the private
    variables [(w, r)], and its local id becomes the constant. *)
Fixpoint cloneExpr {R} (w : nat) (l : lid) (e : expr R) : expr (nat * R) :=
  match e with
  | Const z => Const z
  | Var r => Var (w, r)
  | LocalId d => Const (component l d)
  | LoadBuf b idx => LoadBuf b (cloneExpr w l idx)
  | BinOp op e1 e2 => BinOp op (cloneExpr w l e1) (cloneExpr w l e2)
  end.

(** Modelled from the spec: the clone of a region's instructions for
    work-item [w] with local id [l] ([WorkitemReplication.cc] is not
    among the sources): every private variable is renamed to the clone's
    copy, stores to argument buffers stay stores to the same buffers. *)
Fixpoint cloneCmd {R} (w : nat) (l : lid) (c : cmd R) : cmd (nat * R) :=
  match c with
  | Skip => Skip
  | Assign r e => Assign (w, r) (cloneExpr w l e)
  | StoreBuf b idx e => StoreBuf b (cloneExpr w l idx) (cloneExpr w l e)
  | Seq c1 c2 => Seq (cloneCmd w l c1) (cloneCmd w l c2)
  | If e c1 c2 => If (cloneExpr w l e) (cloneCmd w l c1) (cloneCmd w l c2)
  | While e body => While (cloneExpr w l e) (cloneCmd w l body)
  end.

(** Modelled from the spec: the work-items of a group of size
    [(dx, dy, dz)], in the order of their row-major linearization
    [x + dx * y + dx * dy * z]. *)
Definition workitems (dx dy dz : nat) : list lid :=
  flat_map (fun z =>
    flat_map (fun y =>
      map (fun x => (Z.of_nat x, Z.of_nat y, Z.of_nat z)) (seq 0 dx))
      (seq 0 dy))
    (seq 0 dz).

(** Modelled from the spec: work-item replication of a kernel without
    barriers. The whole function is one region, and the transformed body
    is the sequence of its clones, one per linearized work-item index. *)
Fixpoint cloneAll {R} (c : cmd R) (w : nat) (ls : list lid) : cmd (nat * R) :=
  match ls with
  | [] => Skip
  | l :: ls' => Seq (cloneCmd w l c) (cloneAll c (S w) ls')
  end.

(** Modelled from the spec: [WorkitemReplication::runOnFunction] on a
    kernel without barriers, for the local size [LocalSize]
    ([WorkitemReplication.cc] is not among the sources). *)
Definition runOnFunction {R} (LocalSize : nat * nat * nat) (c : cmd R)
  : cmd (nat * R) :=
  let '(dx, dy, dz) := LocalSize in
  cloneAll c 0 (workitems dx dy dz).

(** The reference behaviour: the original body run once per work-item,
    one run after the other, each from the private state [rho] and on
    the buffers the previous run left. *)
Fixpoint runEach {R} `{EqDecision R} (fuel : nat) (c : cmd R) (rho : R -> Z)
    (ls : list lid) (mu : memory) : option memory :=
  match ls with
  | [] => Some mu
  | l :: ls' =>
      match exec fuel l c (rho, mu) with
      | Some st => runEach fuel c rho ls' (snd st)
      | None => None
      end
  end.

(** The local ids [0 .. n-1] of a one-dimensional group. *)
Definition localIds (n : nat) : list lid :=
  map (fun i => (Z.of_nat i, 0, 0)) (seq 0 n).

(** Clone [w] of the replicated function simulates the original body
    run as work-item [w]: same buffers, the clone's private copies hold
    what the work-item's private variables hold, and the private copies
    of the other clones are what they were in [Rho0]. *)
Definition sim {R : Type} (w : nat) (Rho0 : nat * R -> Z)
    (st : (R -> Z) * memory) (St : (nat * R -> Z) * memory) : Prop :=
  snd St = snd st /\
  (forall r, fst St (w, r) = fst st r) /\
  (forall j r, j <> w -> fst St (j, r) = Rho0 (j, r)).

Definition simOpt {R : Type} (w : nat) (Rho0 : nat * R -> Z)
    (o : option ((R -> Z) * memory))
    (O : option ((nat * R -> Z) * memory)) : Prop :=
  match o, O with
  | Some st, Some St => sim w Rho0 st St
  | None, None => True
  | _, _ => False
  end.

End WorkitemReplication.

(** ** What the claims speak of, in the words of the specification *)

(** The kernel a node of [opencl.kernels] names. *)
Definition kernelName (node : MDNode) : option string :=
  match node with
  | MDFunction name :: _ => Some name
  | _ => None
  end.

(** A kernel is compiled when no filter is configured or the filter is
    its name. *)
Definition compiled (Kernel : string) (name : string) : bool :=
  String.eqb Kernel "" || String.eqb name Kernel.

Definition compiledKernels (Kernel : string) (nodes : list MDNode)
  : list string :=
  filter (fun name => compiled Kernel name = true) (omap kernelName nodes).

(** The header text for a list of kernels: one pair of lines each. *)
Fixpoint headerText (names : list string) : string :=
  match names with
  | [] => ""
  | name :: rest => headerLines name +:+ headerText rest
  end.

(** The required work-group size a node of [opencl.kernel_wg_size_info]
    gives for kernel [k], and the one the whole metadata gives: that of
    the last node naming the kernel. *)
Definition nodeSize (k : string) (node : MDNode) : option (Z * Z * Z) :=
  match node with
  | MDFunction name :: MDConstantInt _ x :: MDConstantInt _ y
      :: MDConstantInt _ z :: _ =>
      if String.eqb name k then Some (x, y, z) else None
  | _ => None
  end.

Fixpoint requiredSize (k : string) (nodes : list MDNode)
  : option (Z * Z * Z) :=
  match nodes with
  | [] => None
  | node :: rest =>
      match requiredSize k rest with
      | Some s => Some s
      | None => nodeSize k node
      end
  end.

(** A node of [opencl.kernel_wg_size_info] the override loop gets
    through for kernel [k]: it has a first operand and, when that is the
    kernel, three integer constants after it. *)
Definition sizeNodeOk (k : string) (node : MDNode) : bool :=
  match node with
  | [] => false
  | MDFunction name :: rest =>
      if String.eqb name k then
        match rest with
        | MDConstantInt _ _ :: MDConstantInt _ _ :: MDConstantInt _ _ :: _ =>
            true
        | _ => false
        end
      else true
  | _ :: _ => true
  end.

Definition sizeInfoOk (k : string) (SizeInfo : option (list MDNode)) : bool :=
  match SizeInfo with
  | Some nodes => forallb (sizeNodeOk k) nodes
  | None => true
  end.

(** The local size with its three leading entries replaced by a required
    size, each component converted the way the assignment to an [int]
    converts it. *)
Definition withSize (s : Z * Z * Z) (localSize : list Z) : list Z :=
  let '(x, y, z) := s in
  <[2%nat := to_int (getLimitedValue z)]>
    (<[1%nat := to_int (getLimitedValue y)]>
       (<[0%nat := to_int (getLimitedValue x)]> localSize)).

(** The local size kernel [k] is to be replicated with. *)
Definition sizeFor (SizeInfo : option (list MDNode)) (external : list Z)
    (k : string) : list Z :=
  match SizeInfo with
  | Some nodes =>
      match requiredSize k nodes with
      | Some s => withSize s external
      | None => external
      end
  | None => external
  end.

(** The instructions that copy one field of the context record (argument
    [n] of the launcher) into a global, when they start at position
    [base] of the block. *)
Definition copyField (n : nat) (field : TypeBuilder.Fields) (global : string)
    (base : nat) : list Instruction :=
  [ GetElementPtr true (Arg n)
      [ConstantInt 32 0; ConstantInt 32 (Z.of_nat (TypeBuilder.fieldIndex field))];
    Load (Inst base);
    Store (Inst (base + 1)) (GlobalRef global) ].

(** The instructions that unpack entry [i] of the argument array [ai]
    for a parameter of type [t], when they start at position [base] of
    the block: address of the entry, load of the pointer it holds, cast
    to a pointer to [t] (none when [t] is [i8]), load of the value. The
    last instruction is the value loaded. *)
Definition loadGroup (ai : Value) (i : nat) (t : LType) (base : nat)
  : list Instruction :=
  [ GetElementPtr false ai [ConstantInt 32 (Z.of_nat i)];
    Load (Inst base) ] ++
  (if LType_eqb (getPointerTo (TypeBuilder.i 8)) (getPointerTo t)
   then [ Load (Inst (base + 1)) ]
   else [ BitCast (Inst (base + 1)) (getPointerTo t);
          Load (Inst (base + 2)) ]).




(** [M.getGlobalVariable(global) != NULL]. *)
Definition finds (M : Module) (global : string) : bool :=
  match getGlobalVariable M global with
  | Some _ => true
  | None => false
  end.

(** The name the launcher of kernel [k] gets in module [M]. *)
Definition launcherName (M : Module) (k : string) : string :=
  fst (uniqueName M ("_" +:+ k)).

(** The launcher as [runOnModule] leaves it, and the entry point built
    from it. *)
Definition launcherOf (M : Module) (K : Function) : Function :=
  noaliasArguments
    (addFnAttr NoInline
       (mkFunction ("_" +:+ fname K) VoidTy
          (fparams K ++ [TypeBuilder.PoclContextPtr]) ExternalLinkage []
          [launcherBody M K])).

(** The same under the name [l] that [Function::Create] gave it. *)
Definition launcherNamed (l : string) (M : Module) (K : Function) : Function :=
  noaliasArguments
    (addFnAttr NoInline
       (mkFunction l VoidTy
          (fparams K ++ [TypeBuilder.PoclContextPtr]) ExternalLinkage []
          [launcherBody M K])).

Definition workgroupOf (L : Function) (body : BasicBlock) : Function :=
  mkFunction (fname L +:+ "_workgroup") VoidTy TypeBuilder.workgroupParams
    ExternalLinkage [] [body].

(** A step of the pass that writes nothing to the header and that, when
    it stops because a function pass failed, stops on kernel [k]. *)
Definition quiet {A} (k : string) (m : Pass A) : Prop :=
  forall s s' r, m s = (s', r) ->
    out s' = out s /\ forall k', r = Err (PassFailed k') -> k' = k.

(** ** Well-formed blocks

    A block the builder produced is well formed when every operand is
    defined where it is used and the block ends in its only terminator. *)

Definition producesValue (i : Instruction) : bool :=
  match i with
  | GetElementPtr _ _ _ | Load _ | BitCast _ _ | Other _ _ => true
  | Store _ _ | Call _ _ | RetVoid => false
  end.

Definition operands (i : Instruction) : list Value :=
  match i with
  | GetElementPtr _ ptr idx => ptr :: idx
  | Load ptr => [ptr]
  | Store val ptr => [val; ptr]
  | BitCast val _ => [val]
  | Call _ args => args
  | RetVoid => []
  | Other _ ops => ops
  end.

(** [defs] tells, for each instruction before the use, whether it yields
    a value; [nargs] is the number of formal arguments. *)
Definition valueDefined (nargs : nat) (defs : list bool) (v : Value) : bool :=
  match v with
  | Arg i => Nat.ltb i nargs
  | Inst j => match defs !! j with Some true => true | _ => false end
  | ConstantInt _ _ => true
  | GlobalRef _ => true
  end.

Definition instructionOk (nargs : nat) (defs : list bool) (i : Instruction)
  : bool :=
  forallb (valueDefined nargs defs) (operands i).

(** The instructions [rest], which follow instructions described by
    [defs], use only values defined before them, and [RetVoid] is the
    last of them and nowhere else. *)
Fixpoint wellFormedFrom (nargs : nat) (defs : list bool)
    (rest : list Instruction) : bool :=
  match rest with
  | [] => false
  | [RetVoid] => true
  | RetVoid :: _ => false
  | i :: rest' =>
      instructionOk nargs defs i &&
      wellFormedFrom nargs (defs ++ [producesValue i]) rest'
  end.

Definition wellFormedBlock (nargs : nat) (b : BasicBlock) : bool :=
  wellFormedFrom nargs [] b.

(** Straight-line instructions, none of them a terminator, that use only
    values defined before them. *)
Fixpoint straightLine (nargs : nat) (defs : list bool)
    (ins : list Instruction) : bool :=
  match ins with
  | [] => true
  | RetVoid :: _ => false
  | i :: ins' =>
      instructionOk nargs defs i &&
      straightLine nargs (defs ++ [producesValue i]) ins'
  end.

(** The argument lists of the calls of a block. *)
Definition callsOf (b : BasicBlock) : list (string * list Value) :=
  omap (fun i => match i with
                 | Call callee args => Some (callee, args)
                 | _ => None
                 end) b.

(** ** Sample inputs *)

Module Samples.

(** Function passes that leave the body as it is, and one whose
    work-item replication fails. *)
Definition idPasses : Passes :=
  mkPasses (fun fs => fs) (fun F => Some (fblocks F))
           (fun _ _ F => Some (fblocks F))
           (fun F => fblocks F) (fun _ _ F => fblocks F).

(** Work-item replication that fails after it has put a block in front
    of the kernel's blocks. *)
Definition failingWR : Passes :=
  mkPasses (fun fs => fs) (fun F => Some (fblocks F)) (fun _ _ _ => None)
           (fun F => fblocks F)
           (fun _ _ F => [Other "br" []] :: fblocks F).

(** Barrier tail replication that fails after it has emptied the last
    block of the kernel. *)
Definition failingBTR : Passes :=
  mkPasses (fun fs => fs) (fun _ => None) (fun _ _ _ => None)
           (fun F => removelast (fblocks F) ++ [[]])
           (fun _ _ F => fblocks F).

(** [__kernel void k(__global float *a, char c)] and a second kernel. *)
Definition k : Function :=
  mkFunction "k" VoidTy [PointerTy FloatTy 1; IntegerTy 8] ExternalLinkage []
    [[Other "store" [Arg 1; Arg 0]; RetVoid]].

Definition k2 : Function :=
  mkFunction "k2" VoidTy [PointerTy (IntegerTy 32) 1] ExternalLinkage []
    [[Other "store" [ConstantInt 32 7; Arg 0]; RetVoid]].

Definition globals : list GlobalVariable :=
  [ mkGlobalVariable "_group_id" (ArrayTy (IntegerTy 32) 3) ExternalLinkage;
    mkGlobalVariable "_num_groups" (ArrayTy (IntegerTy 32) 3) ExternalLinkage ].

Definition sizeNode (name : string) (x y z : Z) : MDNode :=
  [MDFunction name; MDConstantInt 32 x; MDConstantInt 32 y; MDConstantInt 32 z].

(** Two kernels, the first with a required work-group size. *)
Definition unit2 : Module :=
  mkModule [k; k2] globals
    [ ("opencl.kernels", [[MDFunction "k"]; [MDFunction "k2"]]);
      ("opencl.kernel_wg_size_info", [sizeNode "k" 4 4 1]) ] 0.


(** One kernel, no dispatch globals. *)
Definition unit1 : Module :=
  mkModule [k2] [] [ ("opencl.kernels", [[MDFunction "k2"]]) ] 0.

Definition node2 : MDNode := [MDFunction "k2"].


(** The state before and after the kernel loop's iteration on [k2]. *)
Definition start1 : State := mkState [8; 8; 1] "" unit1 [].

Definition after1 : State :=
  fst (compileKernel idPasses "" None node2 start1).

(** The state before and after the kernel loop's iteration on [k], in a
    module that defines both dispatch globals. *)
Definition start2 : State := mkState [8; 8; 1] "" unit2 [].

Definition after2 : State :=
  fst (compileKernel idPasses "" None [MDFunction "k"] start2).

Definition sizeInfo2 : option (list MDNode) :=
  getNamedMetadata unit2 "opencl.kernel_wg_size_info".

(** The state in which the whole pass ends on [unit2]. *)
Definition done2 : State :=
  fst (runOnModule idPasses "" (initState [8; 8; 1] unit2)).




(** [t = a[get_local_id(0)]; a[get_local_id(0)] = t + 1] on the buffer
    [a] that is kernel argument 0. *)
Definition increment : WorkitemReplication.cmd string :=
  WorkitemReplication.Seq
    (WorkitemReplication.Assign "t"
       (WorkitemReplication.LoadBuf 0 (WorkitemReplication.LocalId 0)))
    (WorkitemReplication.StoreBuf 0 (WorkitemReplication.LocalId 0)
       (WorkitemReplication.BinOp WorkitemReplication.Add
          (WorkitemReplication.Var "t") (WorkitemReplication.Const 1))).

Definition buffer3 : gmap (nat * Z) Z :=
  {[ (0%nat, 0) := 10; (0%nat, 1) := 20; (0%nat, 2) := 30 ]}.

End Samples.

(** The two functions the pass adds for kernel [k], by name. *)
Definition synthesisedNames (k : string) : list string :=
  [ "_" +:+ k; "_" +:+ k +:+ "_workgroup" ].

(** ** More sample inputs *)

Module MoreSamples.

(** A module without the [opencl.kernels] metadata. *)
Definition noKernels : Module :=
  mkModule [Samples.k2] Samples.globals
    [ ("opencl.kernel_wg_size_info", [Samples.sizeNode "k2" 2 2 1]) ] 0.

(** Size metadata that names [k2] twice, around a node for [k]. *)
Definition sizesBefore : list MDNode := [Samples.sizeNode "k2" 2 2 1].

Definition sizesAfter : list MDNode := [Samples.sizeNode "k" 4 4 1].

Definition sizeState : State := mkState [8; 8; 1] "" Samples.unit1 [].

Definition sizeStateAfter : State :=
  fst (forEach (sizesBefore ++ Samples.sizeNode "k2" 16 1 1 :: sizesAfter)
               (overrideLocalSize Samples.k2) sizeState).

(** The state after a failed iteration on [k] of [unit2]; the kernel
    and the module as barrier tail replication leaves them in that
    iteration, and the size [k] is to be replicated with. *)
Definition afterFailure : State :=
  fst (compileKernel Samples.failingWR "" Samples.sizeInfo2
         [MDFunction "k"] Samples.start2).

Definition kAfterBTR : Function := setBlocks (fblocks Samples.k) Samples.k.

Definition unitAfterBTR : Module :=
  replaceFunction kAfterBTR (module Samples.start2).

Definition sizeOfK : list Z :=
  sizeFor Samples.sizeInfo2 (LocalSize Samples.start2) "k".



(** The kernel [k2] in a module that has a function named [_k2] and a
    global variable named [_k21], and the iteration on [k2]. *)
Definition unitClash : Module :=
  mkModule [Samples.k2; mkFunction "_k2" VoidTy [] ExternalLinkage [] []]
    [ mkGlobalVariable "_k21" (IntegerTy 32) ExternalLinkage ]
    [ ("opencl.kernels", [[MDFunction "k2"]]) ] 0.

Definition startClash : State := mkState [8; 8; 1] "" unitClash [].

Definition afterClash : State :=
  fst (compileKernel Samples.idPasses "" None Samples.node2 startClash).

(** The pass on [unit2] with the filter [k2]. *)
Definition filtered2 : State * result bool :=
  runOnModule Samples.idPasses "k2" (initState [8; 8; 1] Samples.unit2).

(** Two kernels with different parameters, bodies and required sizes,
    and the pass on them. *)
Definition unitSized : Module :=
  mkModule [Samples.k; Samples.k2] Samples.globals
    [ ("opencl.kernels", [[MDFunction "k"]; [MDFunction "k2"]]);
      ("opencl.kernel_wg_size_info",
       [Samples.sizeNode "k" 4 4 1; Samples.sizeNode "k2" 16 16 2]) ] 0.

Definition runSized : State * result bool :=
  runOnModule Samples.idPasses "" (initState [8; 8; 1] unitSized).

(** The pass on [unit2] with a barrier tail replication that fails. *)
Definition failedBTR2 : State * result bool :=
  runOnModule Samples.failingBTR "" (initState [8; 8; 1] Samples.unit2).

End MoreSamples.

(** ** The matrix benchmark

    The integer logic of the benchmark program that drives the compiled
    kernels: the scan of the command line options, the choice of the
    local work-group size, and the minimum over the kernel run times.
    Unsigned C integers are numbers in [Z] with the wrap-around written
    out. *)

Module Matrix1.

Definition u32 (x : Z) : Z := x mod 2 ^ 32.
Definition u64 (x : Z) : Z := x mod 2 ^ 64.

(** *** Command line options *)

(** The [int] flags of [main], each 0 or 1. *)
Record Flags : Type := mkFlags {
  spir : Z;
  spirv : Z;
  poclbin : Z;
  use_locals : Z;
  use_2d_reg_block : Z;
  use_fma : Z;
  use_svm : Z
}.

Definition noFlags : Flags := mkFlags 0 0 0 0 0 0 0.

(** [s[i] == c] for a C string: past the end is the terminator, which is
    no letter. *)
Definition charIs (s : string) (i : nat) (c : ascii) : bool :=
  match String.get i s with
  | Some d => Ascii.eqb d c
  | None => false
  end.

(** [if (argv[arg_i][1] == c) flag = 1;] for each of the flags. *)
Definition setIf (c : ascii) (set : Flags -> Flags) (a : string) (f : Flags)
  : Flags :=
  if charIs a 1 c then set f else f.

Definition set_spir (f : Flags) : Flags :=
  mkFlags 1 (spirv f) (poclbin f) (use_locals f) (use_2d_reg_block f)
          (use_fma f) (use_svm f).
Definition set_spirv (f : Flags) : Flags :=
  mkFlags (spir f) 1 (poclbin f) (use_locals f) (use_2d_reg_block f)
          (use_fma f) (use_svm f).
Definition set_poclbin (f : Flags) : Flags :=
  mkFlags (spir f) (spirv f) 1 (use_locals f) (use_2d_reg_block f)
          (use_fma f) (use_svm f).
Definition set_use_locals (f : Flags) : Flags :=
  mkFlags (spir f) (spirv f) (poclbin f) 1 (use_2d_reg_block f)
          (use_fma f) (use_svm f).
Definition set_use_2d_reg_block (f : Flags) : Flags :=
  mkFlags (spir f) (spirv f) (poclbin f) (use_locals f) 1
          (use_fma f) (use_svm f).
Definition set_use_fma (f : Flags) : Flags :=
  mkFlags (spir f) (spirv f) (poclbin f) (use_locals f) (use_2d_reg_block f)
          1 (use_svm f).
Definition set_use_svm (f : Flags) : Flags :=
  mkFlags (spir f) (spirv f) (poclbin f) (use_locals f) (use_2d_reg_block f)
          (use_fma f) 1.

(** The body of the option loop for [argv[arg_i]]: seven independent
    tests of its second character, in the order of the source. *)
Definition setFlags (a : string) (f : Flags) : Flags :=
  setIf "M" set_use_svm a
    (setIf "f" set_use_fma a
       (setIf "r" set_use_2d_reg_block a
          (setIf "l" set_use_locals a
             (setIf "b" set_poclbin a
                (setIf "v" set_spirv a
                   (setIf "s" set_spir a f)))))).

(** The option loop over the arguments from [argv[arg_i]] on: it takes
    arguments while they start with a dash, and returns the flags and the
    arguments it did not take. *)
Fixpoint optionLoop (args : list string) (f : Flags) : Flags * list string :=
  match args with
  | a :: rest =>
      if charIs a 0 "-" then optionLoop rest (setFlags a f) else (f, args)
  | [] => (f, [])
  end.

Inductive parsed : Type :=
| ExitFailure
| Options (f : Flags) (is_binary : Z) (explicit_binary_path : option string).

(** From the option loop to the test of the explicit binary path. *)
Definition parseOptions (args : list string) : parsed :=
  let '(f, rest) := optionLoop args noFlags in
  if Z.gtb (spir f + spirv f + poclbin f) 1 then ExitFailure
  else
    let is_binary := spir f + spirv f + poclbin f in
    let explicit_binary_path :=
      match rest with
      | p :: _ => if negb (charIs p 0 "-") then Some p else None
      | [] => None
      end in
    match explicit_binary_path with
    | Some _ =>
        if Z.eqb (spir f + spirv f + poclbin f) 0 then ExitFailure
        else Options f is_binary explicit_binary_path
    | None => Options f is_binary explicit_binary_path
    end.

(** *** The minimum run time *)

(** One step of the profiling loop of [exec_matrix_kernel], for an event
    whose two queries succeeded with [startTime] and [endTime]. *)
Definition minTimeStep (minTime : Z) (times : Z * Z) : Z :=
  let '(startTime, endTime) := times in
  if Z.ltb (u64 (endTime - startTime)) minTime
  then u64 (endTime - startTime)
  else minTime.

(** [minTime] after the loop, which starts from [1UL << 30]. *)
Definition minTimeOf (events : list (Z * Z)) : Z :=
  fold_left minTimeStep events (Z.shiftl 1 30).

(** *** The local work-group size *)

Definition WPT_R : Z := 8.

(** [while (cond (x)) x = step (x);], for at most [fuel] iterations. *)
Fixpoint while (fuel : nat) (cond : Z -> bool) (step : Z -> Z) (x : Z)
  : option Z :=
  match fuel with
  | O => None
  | S fuel' => if cond x then while fuel' cond step (step x) else Some x
  end.

(** [local_wg <<= 1] and [local_wg >>= 1] on an [unsigned]. *)
Definition shl32 (x : Z) : Z := u32 (Z.shiftl x 1).
Definition shr (x : Z) : Z := Z.shiftr x 1.

Inductive detected : Type :=
| LocalWG (local_wg TSM TSK : Z)
| Returned (code : Z)
| AssertionFailed.

Definition bindO {A B} (o : option A) (k : A -> option B) : option B :=
  match o with
  | Some a => k a
  | None => None
  end.

(** The branch of [main] that picks [local_wg] when none is given on the
    command line. [matrix_size] is a [long] that the range test before
    has put in 64..65536; [max_wg_size] is a [size_t], [local_mem_size]
    a [cl_ulong]; [local_wg] is an [unsigned], so its products wrap at
    32 bits before they are compared. *)
Definition autodetect (fuel : nat) (locals regs : bool)
    (max_wg_size matrix_size local_mem_size : Z) : option detected :=
  let minsize :=
    if Z.ltb max_wg_size (u64 matrix_size) then max_wg_size
    else u64 matrix_size in
  bindO
    (if negb locals && negb regs then
       bindO (while fuel (fun lw => Z.ltb (u32 (lw * lw)) minsize) shl32 1)
         (fun lw => while fuel (fun lw => Z.gtb (u32 (lw * lw)) minsize) shr lw)
     else Some 1)
    (fun lw =>
  bindO
    (if locals then
       bindO (while fuel (fun lw => Z.ltb (u32 (lw * 4)) minsize) shl32 lw)
         (fun lw =>
       bindO (while fuel (fun lw => Z.gtb (u32 (lw * 4)) minsize) shr lw)
         (fun lw =>
       while fuel (fun lw => Z.gtb (u32 (lw * lw * 8)) local_mem_size) shr lw))
     else Some lw)
    (fun lw =>
  if regs then
    bindO (while fuel (fun lw => Z.ltb (u32 (lw * lw * WPT_R)) minsize)
             shl32 lw)
      (fun lw =>
    bindO (while fuel (fun lw => Z.gtb (u32 (lw * lw * WPT_R)) minsize) shr lw)
      (fun lw =>
    bindO (while fuel
             (fun lw => negb (Z.eqb lw 0) &&
                        Z.gtb (u32 (lw * lw * WPT_R * 8)) local_mem_size)
             shr lw)
      (fun lw =>
    if Z.eqb lw 0 then Some (Returned (-1))
    else
      let TSM := u32 (lw * WPT_R) in
      bindO (while fuel
               (fun TSK => Z.ltb TSK WPT_R &&
                           Z.ltb (u64 (TSM * TSK * 8)) local_mem_size)
               (fun TSK => u64 (Z.shiftl TSK 1)) lw)
        (fun TSK =>
           if Z.gtb lw 0 then Some (LocalWG lw TSM TSK)
           else Some AssertionFailed))))
  else
    if Z.gtb lw 0 then Some (LocalWG lw 0 0) else Some AssertionFailed)).

(** Some argument of [opts] has [c] as its second character. *)
Definition has (c : ascii) (opts : list string) : bool :=
  existsb (fun a => charIs a 1 c) opts.

(** The two loops for the simplest kernel, started from [local_wg = 1]. *)
Definition simpleLoops (fuel : nat) (minsize : Z) : option Z :=
  bindO (while fuel (fun lw => Z.ltb (u32 (lw * lw)) minsize) shl32 1)
    (fun lw => while fuel (fun lw => Z.gtb (u32 (lw * lw)) minsize) shr lw).

(** What the loops are to find for [minsize]: a power of two whose
    square is at most [minsize] while the square of its double is not. *)
Definition largestSquare (minsize : Z) (r : option Z) : bool :=
  match r with
  | Some lw =>
      existsb (fun e => Z.eqb lw (2 ^ e)) [0; 1; 2; 3; 4; 5; 6; 7; 8] &&
      Z.leb (lw * lw) minsize && Z.ltb minsize ((2 * lw) * (2 * lw))
  | None => false
  end.

(** [P] holds for the [n] integers from [z] on. *)
Fixpoint allFrom (n : nat) (z : Z) (P : Z -> bool) : bool :=
  match n with
  | O => true
  | S n' => P z && allFrom n' (z + 1) P
  end.

(** Sample command lines. *)
Definition optionsA : list string := ["-l"; "-f"; "-s"].
Definition optionsB : list string := ["-s"; "-l"; "-f"; "-l"].

End Matrix1.

(** * Properties *)

(** ** The monad *)

Lemma bind_Ok {A B} (m : Pass A) (k : A -> Pass B) s s' b :
  bind m k s = (s', Ok b) ->
  exists s1 a, m s = (s1, Ok a) /\ k a s1 = (s', Ok b).
Proof.
  unfold bind. destruct (m s) as [s1 [a | e]]; [eauto | discriminate].
Qed.

Lemma lift_Ok {A} (r : result A) s s' a :
  lift r s = (s', Ok a) -> s' = s /\ r = Ok a.
Proof. unfold lift. intros [= <- ->]. auto. Qed.

Lemma fromOption_Ok {A} e (o : option A) a :
  fromOption e o = Ok a -> o = Some a.
Proof. destruct o; simpl; congruence. Qed.

Lemma writeLocalSize_Ok i v s s' u :
  writeLocalSize i v s = (s', Ok u) ->
  (i < length (LocalSize s))%nat /\
  s' = mkState (<[i := v]> (LocalSize s)) (out s) (module s) (WR_calls s).
Proof.
  unfold writeLocalSize. case_decide; intros [= <-]; auto.
Qed.

Lemma readLocalSize_Ok i s s' v :
  readLocalSize i s = (s', Ok v) -> s' = s /\ LocalSize s !! i = Some v.
Proof.
  unfold readLocalSize. intros [= <- H]. split; [done |].
  by apply fromOption_Ok in H.
Qed.

(** Splits a successful run of [m ;; k] in a hypothesis. *)
Ltac step H :=
  let s := fresh "s" in
  let a := fresh "a" in
  let H1 := fresh "Hstep" in
  apply bind_Ok in H as (s & a & H1 & H).

(** ** Types *)

Lemma LType_eqb_eq : forall a b, LType_eqb a b = true -> a = b.
Proof.
  fix IH 1. intros a b.
  destruct a as [| n | | | t n | t n | ts | r ts],
           b as [| m | | | u m | u m | us | q us];
    simpl; try discriminate; try reflexivity.
  - intros H. apply N.eqb_eq in H. by subst.
  - intros H. apply andb_true_iff in H as [H1 H2].
    apply IH in H1. apply N.eqb_eq in H2. by subst.
  - intros H. apply andb_true_iff in H as [H1 H2].
    apply IH in H1. apply N.eqb_eq in H2. by subst.
  - intros H. f_equal. revert us H.
    induction ts as [| t ts IHts]; intros [| u us] H; try discriminate;
      [done |].
    apply andb_true_iff in H as [H1 H2].
    f_equal; [by apply IH | by apply IHts].
  - intros H. apply andb_true_iff in H as [H0 H].
    apply IH in H0. subst q. f_equal. revert us H.
    induction ts as [| t ts IHts]; intros [| u us] H; try discriminate;
      [done |].
    apply andb_true_iff in H as [H1 H2].
    f_equal; [by apply IH | by apply IHts].
Qed.

(** ** Names and lookups *)

Lemma append_assoc (a b c : string) : (a +:+ b) +:+ c = a +:+ (b +:+ c).
Proof.
  induction a as [| x a IH]; [done |].
  change (String x ((a +:+ b) +:+ c) = String x (a +:+ (b +:+ c))).
  by rewrite IH.
Qed.

Lemma append_nil_r (a : string) : a +:+ "" = a.
Proof.
  induction a as [| x a IH]; [done |].
  change (String x (a +:+ "") = String x a). by rewrite IH.
Qed.

Lemma length_append (a b : string) :
  String.length (a +:+ b) = (String.length a + String.length b)%nat.
Proof.
  induction a as [| x a IH]; [done |].
  change (String x a +:+ b) with (String x (a +:+ b)). simpl. by rewrite IH.
Qed.

Lemma append_neq (a b : string) : b <> "" -> a <> a +:+ b.
Proof.
  intros Hb. induction a as [| x a IH].
  - change ("" +:+ b) with b. congruence.
  - change (String x a +:+ b) with (String x (a +:+ b)). congruence.
Qed.

Lemma kernel_name_differs k :
  "_" +:+ k <> k /\ "_" +:+ k +:+ "_workgroup" <> k.
Proof.
  split; intros Heq; apply (f_equal String.length) in Heq;
    rewrite ?length_append in Heq; simpl in Heq; lia.
Qed.

Lemma getFunction_name M name F :
  getFunction M name = Some F -> fname F = name.
Proof.
  unfold getFunction. intros H. apply find_some in H as [_ H].
  by apply String.eqb_eq in H.
Qed.

Lemma getGlobalVariable_name M name g :
  getGlobalVariable M name = Some g -> gname g = name.
Proof.
  unfold getGlobalVariable, findGlobal.
  destruct (getFunction M name); [discriminate |].
  destruct (find _ _) as [g' |] eqn:Hf; [| discriminate].
  destruct (isLocalLinkage _); [discriminate |]. intros [= <-].
  apply find_some in Hf as [_ Hf]. by apply String.eqb_eq in Hf.
Qed.

Lemma find_map_same_name (F : Function) name fs :
  find (fun f => String.eqb (fname f) name)
       (map (fun g => if String.eqb (fname g) (fname F) then F else g) fs)
  = (fun g => if String.eqb (fname g) (fname F) then F else g)
      <$> find (fun f => String.eqb (fname f) name) fs.
Proof.
  induction fs as [| g fs IH]; simpl; [done |].
  destruct (String.eqb (fname g) (fname F)) eqn:Hg.
  - apply String.eqb_eq in Hg. rewrite <- Hg.
    destruct (String.eqb (fname g) name) eqn:Hn; simpl.
    + by rewrite String.eqb_refl.
    + rewrite Hg. apply IH.
  - destruct (String.eqb (fname g) name) eqn:Hn; simpl.
    + by rewrite Hg.
    + apply IH.
Qed.

Lemma getFunction_replace F M name :
  getFunction (replaceFunction F M) name
  = (fun g => if String.eqb (fname g) (fname F) then F else g)
      <$> getFunction M name.
Proof. unfold getFunction, replaceFunction. simpl. apply find_map_same_name. Qed.

Lemma getFunction_replace_ne F M name :
  fname F <> name ->
  getFunction (replaceFunction F M) name = getFunction M name.
Proof.
  intros Hne. rewrite getFunction_replace.
  destruct (getFunction M name) as [G |] eqn:HG; [| done]. simpl.
  apply getFunction_name in HG. rewrite HG.
  assert (String.eqb name (fname F) = false) as ->; [| done].
  apply String.eqb_neq. congruence.
Qed.

Lemma getFunction_replace_same F G M :
  getFunction M (fname F) = Some G ->
  getFunction (replaceFunction F M) (fname F) = Some F.
Proof.
  intros HG. rewrite getFunction_replace, HG. simpl.
  apply getFunction_name in HG. by rewrite HG, String.eqb_refl.
Qed.

Lemma nameTaken_replace F M name :
  nameTaken (replaceFunction F M) name = nameTaken M name.
Proof.
  unfold nameTaken. rewrite getFunction_replace.
  unfold findGlobal. simpl. by destruct (getFunction M name).
Qed.

Lemma getGlobalVariable_replace F M name :
  getGlobalVariable (replaceFunction F M) name = getGlobalVariable M name.
Proof.
  unfold getGlobalVariable. rewrite getFunction_replace.
  unfold findGlobal. simpl. by destruct (getFunction M name).
Qed.

Lemma getFunction_push_fresh F M name :
  getFunction M name = None ->
  getFunction (pushFunction F M) name
  = if String.eqb (fname F) name then Some F else None.
Proof.
  unfold getFunction, pushFunction. simpl. intros H.
  induction (FunctionList M) as [| g fs IH]; simpl in *; [done |].
  destruct (String.eqb (fname g) name); [discriminate | auto].
Qed.

Lemma getFunction_push_found F G M name :
  getFunction M name = Some G ->
  getFunction (pushFunction F M) name = Some G.
Proof.
  unfold getFunction, pushFunction. simpl. intros H.
  induction (FunctionList M) as [| g fs IH]; simpl in *; [done |].
  destruct (String.eqb (fname g) name); auto.
Qed.

Lemma getFunction_push_ne F M name :
  fname F <> name ->
  getFunction (pushFunction F M) name = getFunction M name.
Proof.
  intros Hne. destruct (getFunction M name) as [G |] eqn:HG.
  - by apply getFunction_push_found.
  - rewrite (getFunction_push_fresh _ _ _ HG).
    apply String.eqb_neq in Hne. by rewrite Hne.
Qed.

Lemma getFunction_setLastUnique n M name :
  getFunction (setLastUnique n M) name = getFunction M name.
Proof. reflexivity. Qed.

Lemma nameTaken_false M name :
  nameTaken M name = false -> getFunction M name = None.
Proof.
  unfold nameTaken. destruct (getFunction M name); [discriminate | done].
Qed.

Lemma nameTaken_push F M name :
  nameTaken M name = false ->
  fname F <> name ->
  nameTaken (pushFunction F M) name = false.
Proof.
  intros Hfree Hne. unfold nameTaken in *.
  destruct (getFunction M name) eqn:HF; [discriminate |].
  rewrite (getFunction_push_fresh _ _ _ HF).
  apply String.eqb_neq in Hne. rewrite Hne. exact Hfree.
Qed.

Lemma getGlobalVariable_push_fresh F M name :
  nameTaken M (fname F) = false ->
  getGlobalVariable (pushFunction F M) name = getGlobalVariable M name.
Proof.
  intros Hfree. unfold getGlobalVariable.
  destruct (String.eqb_spec (fname F) name) as [<- | Hne].
  - unfold nameTaken in Hfree.
    destruct (getFunction M (fname F)) eqn:HF; [discriminate |].
    rewrite (getFunction_push_fresh _ _ _ HF), String.eqb_refl.
    change (findGlobal (pushFunction F M) (fname F))
      with (findGlobal M (fname F)).
    by destruct (findGlobal M (fname F)).
  - by rewrite getFunction_push_ne.
Qed.

Lemma names_replace F M :
  map fname (FunctionList (replaceFunction F M)) = map fname (FunctionList M).
Proof.
  unfold replaceFunction. simpl. rewrite map_map. apply map_ext.
  intros g. destruct (String.eqb (fname g) (fname F)) eqn:Hg; [| done].
  by apply String.eqb_eq in Hg.
Qed.

Lemma names_push F M :
  map fname (FunctionList (pushFunction F M))
  = map fname (FunctionList M) ++ [fname F].
Proof. unfold pushFunction. simpl. by rewrite map_app. Qed.

(** Replacing a function that was just appended under a free name. *)
Lemma replaceFunction_push F F' M :
  getFunction M (fname F) = None ->
  fname F' = fname F ->
  replaceFunction F' (pushFunction F M) = pushFunction F' M.
Proof.
  intros Hfree Hname. unfold replaceFunction, pushFunction, setFunctionList.
  simpl. f_equal. rewrite map_app. simpl.
  rewrite Hname, String.eqb_refl. f_equal.
  unfold getFunction in Hfree.
  induction (FunctionList M) as [| g fs IH]; simpl in *; [done |].
  destruct (String.eqb (fname g) (fname F)) eqn:Hg; [discriminate |].
  f_equal. by apply IH.
Qed.

(** ** The symbol table makes names unique *)

Lemma nameTaken_In M name : nameTaken M name = true -> In name (symbols M).
Proof.
  unfold nameTaken, symbols, getFunction, findGlobal. intros H.
  apply in_or_app.
  destruct (find _ (FunctionList M)) as [F |] eqn:HF.
  - left. apply find_some in HF as [Hin Heq]. apply String.eqb_eq in Heq.
    apply in_map_iff. eauto.
  - destruct (find _ (GlobalList M)) as [g |] eqn:Hg; [| discriminate].
    right. apply find_some in Hg as [Hin Heq]. apply String.eqb_eq in Heq.
    apply in_map_iff. eauto.
Qed.

Lemma makeUnique_form fuel M name last :
  exists n, (last < n)%nat /\
            makeUnique fuel M name last = (name +:+ pretty n, n).
Proof.
  revert last. induction fuel as [| fuel IH]; intros last; simpl.
  - exists (S last). split; [lia | done].
  - destruct (nameTaken M (name +:+ pretty (S last))).
    + destruct (IH (S last)) as (n & Hn & ->). exists n. split; [lia | done].
    + exists (S last). split; [lia | done].
Qed.

(** When the name [makeUnique] returns is in use, so was every candidate
    it went through. *)
Lemma makeUnique_taken fuel M name last :
  nameTaken M (fst (makeUnique fuel M name last)) = true ->
  forall i, (1 <= i <= S fuel)%nat ->
    nameTaken M (name +:+ pretty (last + i)%nat) = true.
Proof.
  revert last. induction fuel as [| fuel IH]; intros last H i Hi; simpl in H.
  - assert (i = 1%nat) as -> by lia. by rewrite Nat.add_1_r.
  - destruct (nameTaken M (name +:+ pretty (S last))) eqn:Ht.
    + destruct (decide (i = 1%nat)) as [-> | Hne]; [by rewrite Nat.add_1_r |].
      specialize (IH (S last) H (i - 1)%nat ltac:(lia)).
      by replace (S last + (i - 1))%nat with (last + i)%nat in IH by lia.
    + simpl in H. congruence.
Qed.

(** As many candidates as the table has symbols, and one more, cannot
    all be in use. *)
Lemma makeUnique_free M name last :
  nameTaken M (fst (makeUnique (length (symbols M)) M name last)) = false.
Proof.
  destruct (nameTaken M (fst _)) eqn:H; [| done]. exfalso.
  pose proof (makeUnique_taken _ _ _ _ H) as Hall.
  set (n := length (symbols M)) in *.
  set (cands := (fun i => name +:+ pretty (last + i)%nat) <$> seq 1 (S n)).
  assert (NoDup cands) as Hnd.
  { apply NoDup_fmap_2; [| apply NoDup_seq].
    intros i j Heq. apply String.app_inj in Heq.
    apply pretty_nat_inj in Heq. lia. }
  assert (forall x, x ∈ cands -> x ∈ symbols M) as Hsub.
  { intros x Hx. apply list_elem_of_fmap in Hx as (i & -> & Hi).
    apply elem_of_seq in Hi. apply list_elem_of_In, nameTaken_In, Hall. lia. }
  pose proof (submseteq_length _ _ (NoDup_submseteq _ _ Hnd Hsub)) as Hlen.
  unfold cands in Hlen. rewrite length_fmap, length_seq in Hlen.
  fold n in Hlen. lia.
Qed.

(** The name a new function gets is never one in use. *)
Lemma uniqueName_free M name : nameTaken M (fst (uniqueName M name)) = false.
Proof.
  unfold uniqueName. destruct (nameTaken M name) eqn:H; [| done].
  apply makeUnique_free.
Qed.

Lemma uniqueName_same M name :
  nameTaken M name = false -> uniqueName M name = (name, LastUnique M).
Proof. unfold uniqueName. by intros ->. Qed.

(** The candidates [makeUnique] went past were in use. *)
Lemma makeUnique_skipped fuel M name last u n :
  makeUnique fuel M name last = (u, n) ->
  forall j, (last < j < n)%nat -> nameTaken M (name +:+ pretty j) = true.
Proof.
  revert last. induction fuel as [| fuel IH]; intros last H j Hj; simpl in H.
  - injection H as <- <-. lia.
  - destruct (nameTaken M (name +:+ pretty (S last))) eqn:Ht.
    + destruct (decide (j = S last)) as [-> | Hne]; [done |].
      apply (IH (S last) H). lia.
    + injection H as <- <-. lia.
Qed.

(** A name in use is replaced by the first free one among the name
    followed by [LastUnique + 1], [LastUnique + 2], ... *)
Lemma uniqueName_renamed M name :
  nameTaken M name = true ->
  exists n, (LastUnique M < n)%nat /\
            uniqueName M name = (name +:+ pretty n, n) /\
            nameTaken M (name +:+ pretty n) = false /\
            forall j, (LastUnique M < j < n)%nat ->
                      nameTaken M (name +:+ pretty j) = true.
Proof.
  intros Htaken. pose proof (uniqueName_free M name) as Hfree.
  unfold uniqueName in *. rewrite Htaken in *.
  destruct (makeUnique_form (length (symbols M)) M name (LastUnique M))
    as (n & Hn & Heq).
  exists n. rewrite Heq in Hfree. repeat split; try done.
  by apply (makeUnique_skipped _ _ _ _ _ _ Heq).
Qed.

Lemma uniqueName_prefix M name :
  exists suffix, fst (uniqueName M name) = name +:+ suffix.
Proof.
  destruct (nameTaken M name) eqn:H.
  - destruct (uniqueName_renamed M name H) as (n & _ & -> & _). by eexists.
  - rewrite (uniqueName_same M name H). exists "". by rewrite append_nil_r.
Qed.

Lemma makeUnique_ext fuel M M' name last :
  (forall n, nameTaken M' n = nameTaken M n) ->
  makeUnique fuel M' name last = makeUnique fuel M name last.
Proof.
  intros Hext. revert last. induction fuel as [| fuel IH]; intros last;
    simpl; [done |].
  by rewrite Hext, IH.
Qed.

Lemma uniqueName_replace F M name :
  uniqueName (replaceFunction F M) name = uniqueName M name.
Proof.
  unfold uniqueName. rewrite nameTaken_replace.
  assert (length (symbols (replaceFunction F M)) = length (symbols M)) as ->.
  { unfold symbols. by rewrite names_replace. }
  rewrite (makeUnique_ext _ M); [done |].
  intros n. apply nameTaken_replace.
Qed.

(** ** The local size around work-item replication *)

Lemma withSize_withSize s1 s2 ls : withSize s1 (withSize s2 ls) = withSize s1 ls.
Proof.
  destruct s1 as [[x1 y1] z1], s2 as [[x2 y2] z2].
  by destruct ls as [| a [| b [| c ls]]].
Qed.

Lemma length_withSize s ls : length (withSize s ls) = length ls.
Proof.
  destruct s as [[x y] z]. unfold withSize. by rewrite !length_insert.
Qed.

Lemma restore_withSize s (ls : list Z) a b c :
  ls !! 0%nat = Some a -> ls !! 1%nat = Some b -> ls !! 2%nat = Some c ->
  <[2%nat := c]> (<[1%nat := b]> (<[0%nat := a]> (withSize s ls))) = ls.
Proof.
  destruct s as [[x y] z].
  destruct ls as [| a' [| b' [| c' ls]]]; simpl; try discriminate.
  by intros [= ->] [= ->] [= ->].
Qed.

Lemma restore_same (ls : list Z) a b c :
  ls !! 0%nat = Some a -> ls !! 1%nat = Some b -> ls !! 2%nat = Some c ->
  <[2%nat := c]> (<[1%nat := b]> (<[0%nat := a]> ls)) = ls.
Proof.
  destruct ls as [| a' [| b' [| c' ls]]]; simpl; try discriminate.
  by intros [= ->] [= ->] [= ->].
Qed.

Lemma overrideLocalSize_Ok K node s s' u :
  overrideLocalSize K node s = (s', Ok u) ->
  out s' = out s /\ module s' = module s /\ WR_calls s' = WR_calls s /\
  LocalSize s' = match nodeSize (fname K) node with
                 | Some sz => withSize sz (LocalSize s)
                 | None => LocalSize s
                 end.
Proof.
  unfold overrideLocalSize. intros H.
  step H. apply lift_Ok in Hstep as [-> Hv].
  apply fromOption_Ok in Hv.
  destruct node as [| v node]; [discriminate |]. simpl in Hv.
  injection Hv as ->.
  destruct a as [name | |]; simpl in H;
    try (injection H as <-; by destruct s).
  simpl. destruct (String.eqb name (fname K)) eqn:Hname.
  2: { injection H as <-.
       by destruct node as [| [] [| [] [| [] ?]]]. }
  step H. apply lift_Ok in Hstep as [-> Hx].
  step H. apply writeLocalSize_Ok in Hstep as [_ ->].
  step H. apply lift_Ok in Hstep as [-> Hy].
  step H. apply writeLocalSize_Ok in Hstep as [_ ->].
  step H. apply lift_Ok in Hstep as [-> Hz].
  apply writeLocalSize_Ok in H as [_ ->]. simpl.
  unfold limitedOperand, getOperand in Hx, Hy, Hz.
  destruct node as [| [| bx x |] [| [| by' y |] [| [| bz z |] node]]];
    simpl in Hx, Hy, Hz; try discriminate.
  injection Hx as <-. injection Hy as <-. injection Hz as <-.
  done.
Qed.

Lemma forEach_override_Ok K nodes s s' u :
  forEach nodes (overrideLocalSize K) s = (s', Ok u) ->
  out s' = out s /\ module s' = module s /\ WR_calls s' = WR_calls s /\
  LocalSize s' = match requiredSize (fname K) nodes with
                 | Some sz => withSize sz (LocalSize s)
                 | None => LocalSize s
                 end.
Proof.
  revert s. induction nodes as [| node nodes IH]; intros s H; simpl in H.
  - by injection H as <-.
  - step H. apply overrideLocalSize_Ok in Hstep as (Ho & Hm & Hc & Hl).
    apply IH in H as (Ho' & Hm' & Hc' & Hl').
    rewrite Ho', Hm', Hc', Hl', Ho, Hm, Hc, Hl. repeat split; try done.
    simpl. destruct (requiredSize (fname K) nodes) as [sz |]; [| done].
    destruct (nodeSize (fname K) node); [apply withSize_withSize | done].
Qed.

(** ** One iteration of the kernel loop *)

Lemma kernelName_operand node name :
  getOperand node 0 = Ok (MDFunction name) -> kernelName node = Some name.
Proof.
  destruct node as [| [] node]; simpl; try discriminate. by intros [= ->].
Qed.

Lemma castFunction_Ok v s s' K :
  castFunction v s = (s', Ok K) ->
  s' = s /\ v = MDFunction (fname K) /\
  getFunction (module s) (fname K) = Some K.
Proof.
  destruct v as [name | |]; simpl; try discriminate.
  intros [= <- H]. apply fromOption_Ok in H.
  pose proof (getFunction_name _ _ _ H) as <-. auto.
Qed.

Lemma runFunctionPass_Ok pass abandoned K s s' K' :
  runFunctionPass pass abandoned K s = (s', Ok K') ->
  exists bs, pass K = Some bs /\ K' = setBlocks bs K /\
    s' = mkState (LocalSize s) (out s) (replaceFunction K' (module s))
                 (WR_calls s).
Proof.
  unfold runFunctionPass. destruct (pass K) as [bs |]; [| discriminate].
  intros [= <- <-]. eauto.
Qed.

(** What an iteration that ended normally did: it skipped the kernel, or
    it went through every stage. *)
Lemma compileKernel_Ok P Kernel SizeInfo node s s' u :
  compileKernel P Kernel SizeInfo node s = (s', Ok u) ->
  exists K,
    kernelName node = Some (fname K) /\
    getFunction (module s) (fname K) = Some K /\
    if skipped Kernel K then s' = s
    else exists bs1 bs2,
      let K1 := setBlocks bs1 K in
      let Mbtr := replaceFunction K1 (module s) in
      let size := sizeFor SizeInfo (LocalSize s) (fname K) in
      let K2 := setBlocks bs2 K1 in
      let Mwr := replaceFunction K2 Mbtr in
      let LM := createLauncher Mwr K2 in
      let L := noaliasArguments (addFnAttr NoInline (fst LM)) in
      BTR_runOnFunction P K = Some bs1 /\
      WR_runOnFunction P Mbtr size K1 = Some bs2 /\
      createWorkgroup (replaceFunction L (snd LM)) L = (module s', Ok tt) /\
      out s' = out s +:+ headerLines (fname K) /\
      LocalSize s' = LocalSize s /\
      WR_calls s' = WR_calls s ++ [(fname K, size)].
Proof.
  unfold compileKernel. intros H.
  step H. apply lift_Ok in Hstep as [-> Hv].
  step H. apply castFunction_Ok in Hstep as (-> & -> & HK).
  rename a0 into K. exists K. split; [by apply kernelName_operand |].
  split; [done |].
  destruct (skipped Kernel K); [by injection H as <- |].
  step H. injection Hstep as <- _.
  step H. injection Hstep as <- _.
  step H. apply runFunctionPass_Ok in Hstep as (bs1 & Hbtr & -> & ->).
  step H. apply readLocalSize_Ok in Hstep as [-> H0].
  step H. apply readLocalSize_Ok in Hstep as [-> H1].
  step H. apply readLocalSize_Ok in Hstep as [-> H2].
  simpl in H0, H1, H2.
  step H.
  assert (out s0 = out s +:+ headerLines (fname K) /\
          module s0 = replaceFunction (setBlocks bs1 K) (module s) /\
          WR_calls s0 = WR_calls s /\
          LocalSize s0 = sizeFor SizeInfo (LocalSize s) (fname K))
    as (Ho & Hm & Hc & Hl).
  { unfold sizeFor. destruct SizeInfo as [nodes |].
    - apply forEach_override_Ok in Hstep as (Ho & Hm & Hc & Hl).
      simpl in *. rewrite Ho, Hm, Hc, Hl.
      unfold headerLines. by rewrite !append_assoc.
    - injection Hstep as <-. simpl.
      unfold headerLines. by rewrite !append_assoc. }
  clear Hstep.
  step H. unfold runWR in Hstep.
  step Hstep. injection Hstep0 as <- _. simpl in Hstep.
  apply runFunctionPass_Ok in Hstep as (bs2 & Hwr & -> & ->). simpl in *.
  step H. apply writeLocalSize_Ok in Hstep as [_ ->].
  step H. apply writeLocalSize_Ok in Hstep as [_ ->].
  step H. apply writeLocalSize_Ok in Hstep as [_ ->].
  step H. injection Hstep as <- <-. simpl in H.
  step H. injection Hstep as <- _.
  unfold onModule in H. simpl in H.
  match type of H with
  | (let '(_, _) := ?c in _) = _ => destruct c as [M' r] eqn:HW
  end.
  injection H as <- ->. simpl.
  exists bs1, bs2. rewrite <- Hm, <- Hl.
  repeat split; try done.
  - by destruct u.
  - rewrite Hl. unfold sizeFor.
    assert (length (LocalSize s0) = length (LocalSize s)) as Hlen.
    { rewrite Hl. unfold sizeFor.
      destruct SizeInfo as [nodes |]; [| done].
      destruct (requiredSize _ _); [apply length_withSize | done]. }
    destruct SizeInfo as [nodes |]; [| by apply restore_same].
    destruct (requiredSize _ _); [by apply restore_withSize |].
    by apply restore_same.
  - by rewrite Hc.
Qed.

(** ** The synthesised functions *)



Lemma noaliasArguments_loop_frame i count F :
  let F' := noaliasArguments_loop i count F in
  fname F' = fname F /\ fret F' = fret F /\ fparams F' = fparams F /\
  flinkage F' = flinkage F /\ fblocks F' = fblocks F.
Proof.
  revert i F. induction count as [| count IH]; intros i F; simpl; [done |].
  apply (IH (S i) (setDoesNotAlias (i + 1) F)).
Qed.



Lemma launcherBody_replace F' M F :
  launcherBody (replaceFunction F' M) F = launcherBody M F.
Proof.
  unfold launcherBody, copyContextField.
  by rewrite !getGlobalVariable_replace.
Qed.

(** The launcher's block, instruction by instruction. *)
Lemma launcherBody_eq M F :
  let n := length (fparams F) in
  launcherBody M F =
    (if finds M "_group_id"
     then copyField n TypeBuilder.GROUP_ID "_group_id" 0 else []) ++
    (if finds M "_num_groups"
     then copyField n TypeBuilder.NUM_GROUPS "_num_groups"
            (if finds M "_group_id" then 3 else 0)
     else []) ++
    [ Call (fname F) (map Arg (seq 0 n)); RetVoid ].
Proof.
  unfold launcherBody, copyContextField, finds.
  destruct (getGlobalVariable M "_group_id") as [g |] eqn:Hg;
    destruct (getGlobalVariable M "_num_groups") as [h |] eqn:Hh;
    try (apply getGlobalVariable_name in Hg as ->);
    try (apply getGlobalVariable_name in Hh as ->);
    reflexivity.
Qed.

Lemma workgroupLoads_app ts t i ai b arguments :
  workgroupLoads (ts ++ [t]) i ai b arguments =
    let '(b1, arguments1) := workgroupLoads ts i ai b arguments in
    workgroupLoads [t] (i + length ts) ai b1 arguments1.
Proof.
  revert i b arguments.
  induction ts as [| u ts IH]; intros i b arguments.
  - simpl (workgroupLoads [] _ _ _ _). cbv iota beta.
    by rewrite Nat.add_0_r.
  - change ((u :: ts) ++ [t]) with (u :: (ts ++ [t])).
    cbn [workgroupLoads length].
    destruct (CreateGEP ai _ b) as [b1 gep].
    destruct (CreateLoad gep b1) as [b2 pointer].
    destruct (CreateBitCast pointer _ _ b2) as [b3 bc].
    destruct (CreateLoad bc b3) as [b4 v].
    rewrite IH. by rewrite Nat.add_succ_r.
Qed.

Lemma workgroupLoads_length ts i ai b arguments :
  length (snd (workgroupLoads ts i ai b arguments))
  = (length arguments + length ts)%nat.
Proof.
  revert i b arguments.
  induction ts as [| u ts IH]; intros i b arguments; simpl.
  - lia.
  - destruct (CreateBitCast _ _ _ _) as [b3 bc]. simpl.
    rewrite IH, length_app. simpl. lia.
Qed.

(** One iteration of the loop of [createWorkgroup] appends the group of
    its parameter and pushes the value the group loads. *)
Lemma workgroupLoads_cons t ts i ai b arguments :
  workgroupLoads (t :: ts) i ai b arguments =
    let g := loadGroup ai i t (length b) in
    workgroupLoads ts (S i) ai (b ++ g)
      (arguments ++ [Inst (length b + length g - 1)]).
Proof.
  cbn [workgroupLoads]. unfold loadGroup, CreateGEP, CreateLoad, CreateBitCast.
  destruct (LType_eqb _ _); unfold Insert; cbn [fst snd].
  - rewrite !length_app. cbn [length app].
    rewrite <- !app_assoc. cbn [app].
    do 3 f_equal. f_equal. lia.
  - rewrite !length_app. cbn [length app].
    rewrite <- !app_assoc. cbn [app].
    replace (length b + 1 + 1)%nat with (length b + 2)%nat by lia.
    do 3 f_equal. f_equal. lia.
Qed.

(** The block of the entry point built for a function whose last
    parameter is the context pointer: the groups of the parameters
    before it, then a group for the context pointer itself, whose loaded
    value the call does not use. *)
Lemma workgroupBody_launcher F ts :
  fparams F = ts ++ [TypeBuilder.PoclContextPtr] ->
  let '(b, arguments) := workgroupLoads ts 0 (Arg 0) [] [] in
  workgroupBody F =
    Ok (b ++ loadGroup (Arg 0) (length ts) TypeBuilder.PoclContextPtr (length b)
          ++ [ Call (fname F) (arguments ++ [Arg 1]); RetVoid ]).
Proof.
  intros Hp. unfold workgroupBody. rewrite Hp, workgroupLoads_app.
  destruct (workgroupLoads ts 0 (Arg 0) [] []) as [b arguments].
  rewrite workgroupLoads_cons. cbn [workgroupLoads].
  unfold setBack.
  destruct (arguments ++ _) as [| a l] eqn:Hl.
  { by apply app_eq_nil in Hl as [_ ?]. }
  rewrite <- Hl, removelast_last. simpl bindR.
  unfold CreateRetVoid, CreateCall, Insert. cbn [fst].
  by rewrite <- !app_assoc.
Qed.

Lemma skipped_compiled Kernel K :
  skipped Kernel K = negb (compiled Kernel (fname K)).
Proof.
  unfold skipped, compiled.
  by destruct (String.eqb Kernel ""), (String.eqb (fname K) Kernel).
Qed.

Lemma launcherOf_frame M K :
  fname (launcherOf M K) = "_" +:+ fname K /\
  fret (launcherOf M K) = VoidTy /\
  fparams (launcherOf M K) = fparams K ++ [TypeBuilder.PoclContextPtr] /\
  flinkage (launcherOf M K) = ExternalLinkage /\
  fblocks (launcherOf M K) = [launcherBody M K].
Proof. unfold launcherOf, noaliasArguments. apply noaliasArguments_loop_frame. Qed.

(** A kernel that went through the loop body has its launcher and its
    entry point in the module, under names that were free before. *)

Lemma launcherNamed_frame l M K :
  fname (launcherNamed l M K) = l /\
  fret (launcherNamed l M K) = VoidTy /\
  fparams (launcherNamed l M K) = fparams K ++ [TypeBuilder.PoclContextPtr] /\
  flinkage (launcherNamed l M K) = ExternalLinkage /\
  fblocks (launcherNamed l M K) = [launcherBody M K].
Proof.
  unfold launcherNamed, noaliasArguments. apply noaliasArguments_loop_frame.
Qed.

Lemma launcherBody_push F' M F :
  nameTaken M (fname F') = false ->
  launcherBody (pushFunction F' M) F = launcherBody M F.
Proof.
  intros Hfree. unfold launcherBody, copyContextField.
  by rewrite !(getGlobalVariable_push_fresh _ _ _ Hfree).
Qed.

(** The names of a kernel, of its launcher and of its entry point differ
    from each other, and the entry point is never [<kernel>_workgroup]. *)
Lemma launcher_names_differ M k :
  let l := launcherName M k in
  l <> k /\ l +:+ "_workgroup" <> k /\ l +:+ "_workgroup" <> l /\
  l +:+ "_workgroup" <> k +:+ "_workgroup".
Proof.
  cbv zeta. unfold launcherName.
  destruct (uniqueName_prefix M ("_" +:+ k)) as (suffix & ->).
  repeat split; intros Heq; apply (f_equal String.length) in Heq;
    rewrite ?length_append in Heq; simpl in Heq; lia.
Qed.

(** [createLauncher], in closed form. *)
Lemma createLauncher_eq M F :
  let l := launcherName M (fname F) in
  let last := snd (uniqueName M ("_" +:+ fname F)) in
  let L0 := mkFunction l VoidTy (fparams F ++ [TypeBuilder.PoclContextPtr])
              ExternalLinkage [] [launcherBody M F] in
  createLauncher M F = (L0, pushFunction L0 (setLastUnique last M)).
Proof.
  cbv zeta. unfold createLauncher, Function_Create, launcherName.
  pose proof (uniqueName_free M ("_" +:+ fname F)) as Hfree.
  destruct (uniqueName M ("_" +:+ fname F)) as [l last]. simpl in Hfree.
  cbn [fst snd].
  set (L := mkFunction l _ _ _ _ []).
  assert (nameTaken (setLastUnique last M) (fname L) = false) as Hfree'
    by exact Hfree.
  rewrite (launcherBody_push L _ F Hfree').
  change (launcherBody (setLastUnique last M) F) with (launcherBody M F).
  f_equal. apply replaceFunction_push; [| done].
  by apply nameTaken_false.
Qed.

Lemma workgroupBody_launcherNamed l M K :
  exists body, workgroupBody (launcherNamed l M K) = Ok body.
Proof.
  destruct (launcherNamed_frame l M K) as (_ & _ & Hp & _).
  pose proof (workgroupBody_launcher _ _ Hp) as H.
  destruct (workgroupLoads (fparams K) 0 (Arg 0) [] []) as [b arguments].
  eauto.
Qed.

(** The module an iteration of the kernel loop leaves: the kernel with
    the body the two function passes gave it, the launcher appended,
    and the entry point either appended, under a name that was free, or
    a function the module had under that name, with the type of an entry
    point, and now with one more block. *)
Lemma compileKernel_module P Kernel SizeInfo node s s' k :
  compileKernel P Kernel SizeInfo node s = (s', Ok tt) ->
  kernelName node = Some k ->
  compiled Kernel k = true ->
  exists K bs1 bs2 body,
    let l := launcherName (module s) k in
    let last := snd (uniqueName (module s) ("_" +:+ k)) in
    let L := launcherNamed l (module s) K in
    let Mwr := replaceFunction (setBlocks bs2 (setBlocks bs1 K))
                 (replaceFunction (setBlocks bs1 K) (module s)) in
    let Ml := pushFunction L (setLastUnique last Mwr) in
    fname K = k /\
    getFunction (module s) k = Some K /\
    workgroupBody L = Ok body /\
    ((nameTaken (module s) (l +:+ "_workgroup") = false /\
      module s' = pushFunction (workgroupOf L body) Ml) \/
     (exists W0,
        getFunction (module s) (l +:+ "_workgroup") = Some W0 /\
        fret W0 = VoidTy /\ fparams W0 = TypeBuilder.workgroupParams /\
        module s' = replaceFunction (appendBlock body W0) Ml)).
Proof.
  intros H Hk Hc.
  apply compileKernel_Ok in H as (K & Hname & HK & H).
  rewrite Hk in Hname. injection Hname as ->.
  rewrite skipped_compiled, Hc in H. simpl in H.
  destruct H as (bs1 & bs2 & _ & _ & HW & _).
  rewrite createLauncher_eq in HW. cbn [fst snd fname fparams setBlocks] in HW.
  unfold launcherName in *.
  rewrite !uniqueName_replace in HW.
  rewrite !launcherBody_replace in HW.
  change (launcherBody (module s) (setBlocks bs2 (setBlocks bs1 K)))
    with (launcherBody (module s) K) in HW.
  set (l := fst (uniqueName (module s) ("_" +:+ fname K))) in *.
  set (last := snd (uniqueName (module s) ("_" +:+ fname K))) in *.
  set (Mwr := replaceFunction _ (replaceFunction _ (module s))) in *.
  set (L0 := mkFunction l _ _ _ _ _) in *.
  change (noaliasArguments (addFnAttr NoInline L0))
    with (launcherNamed l (module s) K) in HW.
  set (L := launcherNamed l (module s) K) in *.
  destruct (launcherNamed_frame l (module s) K) as (HnL & _ & HpL & _).
  fold L in HnL, HpL.
  destruct (launcher_names_differ (module s) (fname K))
    as (Hlk & Hwk & Hwl & _).
  unfold launcherName in Hlk, Hwk, Hwl. fold l in Hlk, Hwk, Hwl.
  assert (nameTaken (module s) l = false) as Hfree
    by apply uniqueName_free.
  assert (getFunction (setLastUnique last Mwr) l = None) as HfreeL.
  { change (getFunction Mwr l = None). apply nameTaken_false.
    unfold Mwr. by rewrite !nameTaken_replace. }
  rewrite replaceFunction_push in HW; [| exact HfreeL | by rewrite HnL].
  set (Ml := pushFunction L (setLastUnique last Mwr)) in *.
  destruct (workgroupBody_launcherNamed l (module s) K) as (body & Hbody).
  fold L in Hbody.
  assert (getFunction Ml (l +:+ "_workgroup")
          = getFunction (module s) (l +:+ "_workgroup")) as HgetW.
  { unfold Ml. rewrite getFunction_push_ne by (rewrite HnL; congruence).
    rewrite getFunction_setLastUnique.
    unfold Mwr. rewrite !getFunction_replace_ne; [done | |]; simpl; congruence. }
  exists K, bs1, bs2, body. cbv zeta. fold l last Mwr L Ml.
  do 3 (split; [done |]).
  unfold createWorkgroup, getOrInsertFunction, getNamedValue in HW.
  rewrite HnL, HgetW, Hbody in HW.
  change (findGlobal Ml (l +:+ "_workgroup"))
    with (findGlobal (module s) (l +:+ "_workgroup")) in HW.
  destruct (getFunction (module s) (l +:+ "_workgroup")) as [W0 |] eqn:HW0.
  - destruct (LType_eqb _ _) eqn:Hty; simpl in HW; [| discriminate].
    apply LType_eqb_eq in Hty. injection Hty as Hret Hpar.
    injection HW as <-. right. by exists W0.
  - destruct (findGlobal (module s) (l +:+ "_workgroup")) as [g |] eqn:Hg;
      simpl in HW; [discriminate |].
    injection HW as <-. left. split.
    + unfold nameTaken. by rewrite HW0, Hg.
    + unfold workgroupOf. rewrite HnL.
      apply replaceFunction_push; [| done].
      cbn [fname]. exact HgetW.
Qed.

(** The launcher and the entry point of a compiled kernel, looked up in
    the module the iteration leaves. *)
Lemma compileKernel_lookup P Kernel SizeInfo node s s' k :
  compileKernel P Kernel SizeInfo node s = (s', Ok tt) ->
  kernelName node = Some k ->
  compiled Kernel k = true ->
  exists K body W,
    let l := launcherName (module s) k in
    let L := launcherNamed l (module s) K in
    fname K = k /\
    getFunction (module s) k = Some K /\
    workgroupBody L = Ok body /\
    getFunction (module s') l = Some L /\
    getFunction (module s') (l +:+ "_workgroup") = Some W /\
    fname W = l +:+ "_workgroup" /\
    fret W = VoidTy /\
    fparams W = TypeBuilder.workgroupParams /\
    last (fblocks W) = Some body /\
    (nameTaken (module s) (l +:+ "_workgroup") = false ->
     W = workgroupOf L body).
Proof.
  intros H Hk Hc.
  destruct (compileKernel_module _ _ _ _ _ _ _ H Hk Hc)
    as (K & bs1 & bs2 & body & HnK & HK & Hbody & Hmod).
  cbv zeta in *.
  set (l := launcherName (module s) k) in *.
  set (last := snd (uniqueName (module s) ("_" +:+ k))) in *.
  set (L := launcherNamed l (module s) K) in *.
  set (Mwr := replaceFunction _ (replaceFunction _ (module s))) in *.
  destruct (launcherNamed_frame l (module s) K) as (HnL & _).
  fold L in HnL.
  destruct (launcher_names_differ (module s) k) as (Hlk & Hwk & Hwl & _).
  fold l in Hlk, Hwk, Hwl.
  assert (getFunction (setLastUnique last Mwr) l = None) as HfreeL.
  { change (getFunction Mwr l = None). apply nameTaken_false.
    unfold Mwr. rewrite !nameTaken_replace. apply uniqueName_free. }
  assert (getFunction (pushFunction L (setLastUnique last Mwr)) l = Some L)
    as HL.
  { rewrite (getFunction_push_fresh _ _ _ HfreeL).
    by rewrite HnL, String.eqb_refl. }
  assert (getFunction (pushFunction L (setLastUnique last Mwr))
            (l +:+ "_workgroup")
          = getFunction (module s) (l +:+ "_workgroup")) as HgetW.
  { rewrite getFunction_push_ne by (rewrite HnL; congruence).
    rewrite getFunction_setLastUnique.
    unfold Mwr. rewrite !getFunction_replace_ne; [done | |]; simpl; congruence. }
  destruct Hmod as [[HfreeW ->] | (W0 & HW0 & Hret & Hpar & ->)].
  - exists K, body, (workgroupOf L body). cbv zeta. fold l L.
    repeat split; try done.
    + rewrite getFunction_push_ne; [done |].
      unfold workgroupOf. cbn [fname]. by rewrite HnL.
    + rewrite getFunction_push_fresh.
      * unfold workgroupOf. cbn [fname]. by rewrite HnL, String.eqb_refl.
      * rewrite HgetW. by apply nameTaken_false.
    + unfold workgroupOf. cbn [fname]. by rewrite HnL.
  - pose proof (getFunction_name _ _ _ HW0) as HnW0.
    exists K, body, (appendBlock body W0). cbv zeta. fold l L.
    repeat split; try done.
    + rewrite getFunction_replace_ne; [done |]. cbn [fname appendBlock].
      by rewrite HnW0.
    + replace (l +:+ "_workgroup") with (fname (appendBlock body W0)) at 1
        by exact HnW0.
      apply (getFunction_replace_same _ W0). cbn [fname appendBlock].
      by rewrite HnW0, HgetW.
    + cbn [fblocks appendBlock]. apply last_snoc.
    + intros Hfree. apply nameTaken_false in Hfree. congruence.
Qed.

(** The same when the name [_k] is free: the launcher has it. *)
Lemma compileKernel_synthesis P Kernel SizeInfo node s s' k :
  compileKernel P Kernel SizeInfo node s = (s', Ok tt) ->
  kernelName node = Some k ->
  compiled Kernel k = true ->
  nameTaken (module s) ("_" +:+ k) = false ->
  exists K body W,
    let L := launcherOf (module s) K in
    fname K = k /\
    getFunction (module s) k = Some K /\
    workgroupBody L = Ok body /\
    getFunction (module s') ("_" +:+ k) = Some L /\
    getFunction (module s') ("_" +:+ k +:+ "_workgroup") = Some W /\
    fret W = VoidTy /\
    fparams W = TypeBuilder.workgroupParams /\
    last (fblocks W) = Some body /\
    (nameTaken (module s) ("_" +:+ k +:+ "_workgroup") = false ->
     W = workgroupOf L body).
Proof.
  intros H Hk Hc Hfree.
  destruct (compileKernel_lookup _ _ _ _ _ _ _ H Hk Hc)
    as (K & body & W & HnK & HK & Hbody & HL & HW & _ & Hret & Hpar & Hlast
        & Hnew).
  cbv zeta in *. unfold launcherName in *.
  rewrite (uniqueName_same _ _ Hfree) in *. cbn [fst] in *.
  assert (launcherNamed ("_" +:+ k) (module s) K = launcherOf (module s) K)
    as HLeq by (unfold launcherNamed, launcherOf; by rewrite HnK).
  rewrite HLeq in *.
  exists K, body, W. cbv zeta. repeat split; done.
Qed.
(** ** The groups the loop of [createWorkgroup] emits *)

Lemma callsOf_loadGroup ai i t base : callsOf (loadGroup ai i t base) = [].
Proof.
  unfold loadGroup.
  by destruct (LType_eqb (getPointerTo (TypeBuilder.i 8)) (getPointerTo t)).
Qed.

Lemma workgroupLoads_extends ts i ai b arguments :
  exists ext vs,
    workgroupLoads ts i ai b arguments = (b ++ ext, arguments ++ vs) /\
    length vs = length ts /\
    callsOf ext = [].
Proof.
  revert i b arguments. induction ts as [| t ts IH]; intros i b arguments.
  - exists [], []. simpl. by rewrite !app_nil_r.
  - rewrite workgroupLoads_cons. cbv zeta.
    destruct (IH (S i) (b ++ loadGroup ai i t (length b))
                (arguments ++
                 [Inst (length b + length (loadGroup ai i t (length b)) - 1)]))
      as (ext & vs & -> & Hlen & Hcalls).
    exists (loadGroup ai i t (length b) ++ ext),
           (Inst (length b + length (loadGroup ai i t (length b)) - 1) :: vs).
    split; [by rewrite <- !app_assoc | split; [simpl; by rewrite Hlen |]].
    unfold callsOf in *. rewrite omap_app, Hcalls, app_nil_r.
    apply callsOf_loadGroup.
Qed.

(** Parameter [j] of the function given to [createWorkgroup] has its
    group in the block, at entry [i + j] of the array, and the value the
    group loads is argument [j] of the collected arguments. *)
Lemma workgroupLoads_positions ts i ai b arguments b' arguments' :
  workgroupLoads ts i ai b arguments = (b', arguments') ->
  forall j t, ts !! j = Some t ->
    exists pre post,
      let g := loadGroup ai (i + j) t (length pre) in
      b' = pre ++ g ++ post /\
      arguments' !! (length arguments + j)%nat
        = Some (Inst (length pre + length g - 1)).
Proof.
  revert i b arguments b' arguments'.
  induction ts as [| t ts IH]; intros i b arguments b' arguments' H j u Hj.
  - by destruct j.
  - rewrite workgroupLoads_cons in H. cbv zeta in H.
    destruct j as [| j].
    + injection Hj as ->.
      destruct (workgroupLoads_extends ts (S i) ai
                  (b ++ loadGroup ai i u (length b))
                  (arguments ++
                   [Inst (length b + length (loadGroup ai i u (length b)) - 1)]))
        as (ext & vs & Hext & _ & _).
      rewrite Hext in H. injection H as <- <-.
      exists b, ext. cbv zeta. rewrite !Nat.add_0_r, <- !app_assoc.
      split; [done |].
      rewrite lookup_app_r by lia. by rewrite Nat.sub_diag.
    + destruct (IH _ _ _ _ _ H j u Hj) as (pre & post & Hb & Ha).
      exists pre, post. cbv zeta in *. rewrite Nat.add_succ_r.
      split; [done |].
      rewrite length_app in Ha. simpl in Ha.
      by replace (length arguments + S j)%nat
        with (length arguments + 1 + j)%nat by lia.
Qed.

(** ** Blocks that are well formed *)

Lemma valueDefined_mono nargs defs more v :
  valueDefined nargs defs v = true ->
  valueDefined nargs (defs ++ more) v = true.
Proof.
  destruct v as [i | j | |]; simpl; try done.
  destruct (defs !! j) as [[|] |] eqn:Hj; try done.
  by rewrite (lookup_app_l_Some _ _ _ _ Hj).
Qed.

Lemma forallb_valueDefined_mono nargs defs more vs :
  forallb (valueDefined nargs defs) vs = true ->
  forallb (valueDefined nargs (defs ++ more)) vs = true.
Proof.
  rewrite !forallb_forall. intros H v Hv. apply valueDefined_mono. auto.
Qed.

Lemma straightLine_app nargs defs a b :
  straightLine nargs defs (a ++ b)
  = straightLine nargs defs a
    && straightLine nargs (defs ++ map producesValue a) b.
Proof.
  revert defs. induction a as [| i a IH]; intros defs.
  - simpl. by rewrite app_nil_r.
  - destruct i; simpl; try done;
      rewrite IH, <- app_assoc, <- andb_assoc; reflexivity.
Qed.

Lemma wellFormedFrom_app nargs defs a b :
  straightLine nargs defs a = true ->
  wellFormedFrom nargs defs (a ++ b)
  = wellFormedFrom nargs (defs ++ map producesValue a) b.
Proof.
  revert defs. induction a as [| i a IH]; intros defs Ha.
  - simpl. by rewrite app_nil_r.
  - destruct i; simpl in Ha; try discriminate;
      apply andb_true_iff in Ha as [Hi Ha];
      simpl; rewrite Hi, (IH _ Ha), <- app_assoc; reflexivity.
Qed.

Lemma lookup_defs_at (defs more : list bool) j :
  (defs ++ more) !! (length defs + j)%nat = more !! j.
Proof. rewrite lookup_app_r by lia. f_equal. lia. Qed.

Lemma loadGroup_straight nargs defs i t :
  (1 <= nargs)%nat ->
  let g := loadGroup (Arg 0) i t (length defs) in
  straightLine nargs defs g = true /\
  (defs ++ map producesValue g) !! (length defs + length g - 1)%nat
    = Some true.
Proof.
  intros Hn. unfold loadGroup.
  assert (Nat.ltb 0 nargs = true) as H0 by (apply Nat.ltb_lt; lia).
  destruct (LType_eqb (getPointerTo (TypeBuilder.i 8)) (getPointerTo t));
    cbn [app straightLine instructionOk operands forallb valueDefined
         producesValue map length]; rewrite H0; cbn [andb].
  - replace (length defs) with (length defs + 0)%nat at 1 by lia.
    rewrite lookup_defs_at. cbn [lookup list_lookup andb].
    rewrite <- app_assoc. rewrite lookup_defs_at. cbn [lookup list_lookup app].
    split; [done |].
    replace (length defs + 3 - 1)%nat with (length defs + 2)%nat by lia.
    by rewrite lookup_defs_at.
  - replace (length defs) with (length defs + 0)%nat at 1 by lia.
    rewrite lookup_defs_at. cbn [lookup list_lookup andb].
    rewrite <- !app_assoc. rewrite !lookup_defs_at.
    cbn [lookup list_lookup app].
    split; [done |].
    replace (length defs + 4 - 1)%nat with (length defs + 3)%nat by lia.
    by rewrite lookup_defs_at.
Qed.

Lemma workgroupLoads_wellFormed nargs ts :
  (1 <= nargs)%nat ->
  forall i b arguments b' arguments',
    straightLine nargs [] b = true ->
    forallb (valueDefined nargs (map producesValue b)) arguments = true ->
    workgroupLoads ts i (Arg 0) b arguments = (b', arguments') ->
    straightLine nargs [] b' = true /\
    forallb (valueDefined nargs (map producesValue b')) arguments' = true.
Proof.
  intros Hn. induction ts as [| t ts IH];
    intros i b arguments b' arguments' Hb Hargs H.
  - injection H as <- <-. auto.
  - rewrite workgroupLoads_cons in H. cbv zeta in H.
    destruct (loadGroup_straight nargs (map producesValue b) i t Hn)
      as [Hg Hlast].
    rewrite length_map in Hg, Hlast.
    apply IH in H; [done | |].
    + rewrite straightLine_app, Hb. simpl. exact Hg.
    + rewrite map_app, forallb_app.
      rewrite (forallb_valueDefined_mono _ _ _ _ Hargs).
      cbn [forallb valueDefined andb]. by rewrite Hlast.
Qed.

Lemma workgroupBody_wellFormed F ts body :
  fparams F = ts ++ [TypeBuilder.PoclContextPtr] ->
  workgroupBody F = Ok body ->
  wellFormedBlock 2 body = true /\
  exists args, callsOf body = [(fname F, args)] /\
               length args = length (fparams F).
Proof.
  intros Hp Hbody.
  pose proof (workgroupBody_launcher F ts Hp) as Hclosed.
  destruct (workgroupLoads ts 0 (Arg 0) [] []) as [b arguments] eqn:Hl.
  assert (body =
          b ++ loadGroup (Arg 0) (length ts) TypeBuilder.PoclContextPtr
                 (length b)
            ++ [Call (fname F) (arguments ++ [Arg 1]); RetVoid])
    as -> by congruence.
  clear Hbody Hclosed.
  destruct (workgroupLoads_wellFormed 2 ts ltac:(lia) 0 [] [] b arguments
              eq_refl eq_refl Hl) as [Hb Hargs].
  destruct (loadGroup_straight 2 (map producesValue b) (length ts)
              TypeBuilder.PoclContextPtr ltac:(lia)) as [Hg _].
  rewrite length_map in Hg.
  split.
  - unfold wellFormedBlock.
    rewrite (wellFormedFrom_app _ _ _ _ Hb).
    change ([] ++ map producesValue b) with (map producesValue b).
    rewrite (wellFormedFrom_app _ _ _ _ Hg).
    cbn [wellFormedFrom]. unfold instructionOk. cbn [operands].
    rewrite forallb_app.
    rewrite (forallb_valueDefined_mono _ _ _ _ Hargs). reflexivity.
  - destruct (workgroupLoads_extends ts 0 (Arg 0) [] [])
      as (ext & vs & Hext & Hlen & Hcalls).
    rewrite Hl in Hext. simpl in Hext. injection Hext as -> ->.
    exists (vs ++ [Arg 1]). split.
    + unfold callsOf in *. rewrite !omap_app, Hcalls.
      fold (callsOf (loadGroup (Arg 0) (length ts)
                       TypeBuilder.PoclContextPtr (length ext))).
      by rewrite callsOf_loadGroup.
    + rewrite Hp, !length_app, Hlen. reflexivity.
Qed.

Lemma forallb_args nargs defs n :
  (n <= nargs)%nat ->
  forallb (valueDefined nargs defs) (map Arg (seq 0 n)) = true.
Proof.
  intros Hn. apply forallb_forall. intros v Hv.
  apply in_map_iff in Hv as (i & <- & Hi). apply in_seq in Hi.
  simpl. apply Nat.ltb_lt. lia.
Qed.

Lemma launcherBody_wellFormed M K :
  wellFormedBlock (length (fparams K) + 1) (launcherBody M K) = true /\
  callsOf (launcherBody M K) = [(fname K, map Arg (seq 0 (length (fparams K))))].
Proof.
  rewrite launcherBody_eq. cbv zeta. unfold wellFormedBlock, copyField.
  set (n := length (fparams K)).
  assert (Nat.ltb n (n + 1) = true) as Hlt by (apply Nat.ltb_lt; lia).
  assert (forall defs, forallb (valueDefined (n + 1) defs) (map Arg (seq 0 n))
                       = true) as Hargs
    by (intros defs; apply forallb_args; lia).
  destruct (finds M "_group_id"), (finds M "_num_groups");
    cbn [app wellFormedFrom instructionOk operands forallb valueDefined
         producesValue lookup list_lookup Nat.add andb callsOf omap];
    rewrite ?Hlt, ?Hargs; split; reflexivity.
Qed.

(** ** Global variables by name *)


Lemma find_none_filter {A} (name : A -> string) n xs :
  length (List.filter (String.eqb n) (map name xs)) = 0%nat ->
  find (fun x => String.eqb (name x) n) xs = None.
Proof.
  induction xs as [| x xs IH]; simpl; [done |].
  rewrite (String.eqb_sym (name x) n).
  destruct (String.eqb n (name x)); simpl; [discriminate | exact IH].
Qed.




(** ** The kernel loop and the whole pass *)

Lemma compiledKernels_cons Kernel node nodes k :
  kernelName node = Some k ->
  compiledKernels Kernel (node :: nodes) =
    if compiled Kernel k then k :: compiledKernels Kernel nodes
    else compiledKernels Kernel nodes.
Proof.
  intros Hk. unfold compiledKernels. simpl. rewrite Hk. simpl.
  rewrite filter_cons. destruct (compiled Kernel k); by case_decide.
Qed.


Lemma getNamedMetadata_normalize P M name :
  getNamedMetadata (normalize P M) name = getNamedMetadata M name.
Proof. reflexivity. Qed.

(** A run of the pass that returns. *)
Lemma runOnModule_Ok P Kernel ext M s' b :
  runOnModule P Kernel (initState ext M) = (s', Ok b) ->
  b = true /\
  exists nodes,
    getNamedMetadata M "opencl.kernels" = Some nodes /\
    forEach nodes
      (compileKernel P Kernel (getNamedMetadata M "opencl.kernel_wg_size_info"))
      (mkState ext "" (normalize P M) []) = (s', Ok tt).
Proof.
  unfold runOnModule. intros H.
  step H. injection Hstep as <- <-.
  step H. injection Hstep as <- _.
  step H. injection Hstep as <- _.
  step H. injection Hstep as <- <-. simpl in H.
  step H. apply lift_Ok in Hstep as [-> Hk].
  apply fromOption_Ok in Hk. rewrite getNamedMetadata_normalize in Hk.
  step H. injection H as <- <-.
  split; [done |]. eexists. split; [exact Hk |].
  match type of Hstep with _ = (_, Ok ?x) => by destruct x end.
Qed.


(** ** The header, however the run ends *)

Lemma quiet_bind {A B} k (m : Pass A) (f : A -> Pass B) (Q : A -> Prop) :
  quiet k m ->
  (forall s s' a, m s = (s', Ok a) -> Q a) ->
  (forall a, Q a -> quiet k (f a)) ->
  quiet k (bind m f).
Proof.
  intros Hm HQ Hf s s' r H. unfold bind in H.
  destruct (m s) as [s1 [a | e]] eqn:Hms.
  - destruct (Hm _ _ _ Hms) as [Ho _].
    destruct (Hf a (HQ _ _ _ Hms) _ _ _ H) as [Ho' He].
    split; [congruence | done].
  - injection H as <- <-. destruct (Hm _ _ _ Hms) as [Ho He].
    split; [done |]. intros k' [= ->]. by apply He.
Qed.

Lemma quiet_seq {A B} k (m : Pass A) (f : A -> Pass B) :
  quiet k m -> (forall a, quiet k (f a)) -> quiet k (bind m f).
Proof.
  intros Hm Hf. apply (quiet_bind k m f (fun _ => True)); auto.
Qed.

Lemma quiet_ret {A} k (a : A) : quiet k (ret a).
Proof. intros s s' r [= <- <-]. split; [done | discriminate]. Qed.

Lemma quiet_lift {A} k (r : result A) :
  (forall k', r <> Err (PassFailed k')) -> quiet k (lift r).
Proof.
  intros Hr s s' r' [= <- <-]. split; [done |]. intros k' H. by destruct (Hr k').
Qed.

Lemma getOperand_error node i e :
  getOperand node i = Err e -> e = NoOperand.
Proof. unfold getOperand. destruct (node !! i); simpl; congruence. Qed.

Lemma limitedOperand_error node i e :
  limitedOperand node i = Err e -> e = NoOperand \/ e = BadCast.
Proof.
  unfold limitedOperand, getOperand.
  destruct (node !! i) as [[] |]; simpl; intros [= <-]; auto.
Qed.

Lemma quiet_getOperand k node i : quiet k (lift (getOperand node i)).
Proof.
  apply quiet_lift. intros k' H. by apply getOperand_error in H.
Qed.

Lemma quiet_limitedOperand k node i : quiet k (lift (limitedOperand node i)).
Proof.
  apply quiet_lift. intros k' H. by apply limitedOperand_error in H as [|].
Qed.

Lemma quiet_readLocalSize k i : quiet k (readLocalSize i).
Proof.
  intros s s' r [= <- <-]. split; [done |].
  destruct (LocalSize s !! i); simpl; discriminate.
Qed.

Lemma quiet_writeLocalSize k i v : quiet k (writeLocalSize i v).
Proof.
  intros s s' r. unfold writeLocalSize.
  case_decide; intros [= <- <-]; split; done.
Qed.

Lemma quiet_recordCall k name : quiet k (recordCall name).
Proof. intros s s' r [= <- <-]. split; [done | discriminate]. Qed.

Lemma quiet_getModule k : quiet k getModule.
Proof. intros s s' r [= <- <-]. split; [done | discriminate]. Qed.

Lemma quiet_setModule k M : quiet k (setModule M).
Proof. intros s s' r [= <- <-]. split; [done | discriminate]. Qed.

Lemma quiet_runFunctionPass pass abandoned K :
  quiet (fname K) (runFunctionPass pass abandoned K).
Proof.
  intros s s' r. unfold runFunctionPass.
  destruct (pass K); intros [= <- <-]; split; try done. by intros k' [= ->].
Qed.

Lemma quiet_forEach {A} k (xs : list A) (body : A -> Pass unit) :
  (forall x, quiet k (body x)) -> quiet k (forEach xs body).
Proof.
  intros Hbody. induction xs as [| x xs IH]; simpl.
  - apply quiet_ret.
  - apply quiet_seq; auto.
Qed.

Lemma quiet_overrideLocalSize k K node : quiet k (overrideLocalSize K node).
Proof.
  unfold overrideLocalSize.
  apply quiet_seq; [apply quiet_getOperand |]. intros v.
  destruct (isKernel v K); [| apply quiet_ret].
  repeat first [ apply quiet_writeLocalSize
               | apply quiet_seq; [first [apply quiet_limitedOperand
                                         | apply quiet_writeLocalSize] |];
                 intros ? ].
Qed.

Lemma workgroupBody_error F e : workgroupBody F = Err e -> e = EmptyArguments.
Proof.
  unfold workgroupBody.
  destruct (workgroupLoads _ _ _ _ _) as [b arguments].
  destruct arguments; simpl; congruence.
Qed.

Lemma quiet_createWorkgroup k L : quiet k (onModule (fun M => createWorkgroup M L)).
Proof.
  intros s s' r. unfold onModule, createWorkgroup.
  destruct (getOrInsertFunction _ _ _ _) as [c M].
  destruct (dyn_cast_Function c).
  - destruct (workgroupBody L) as [body | e] eqn:Hb; intros [= <- <-];
      split; try done.
    apply workgroupBody_error in Hb as ->. discriminate.
  - intros [= <- <-]. split; done.
Qed.

(** An iteration of the kernel loop either writes nothing, and then it
    skipped the kernel or stopped before it had one, or it wrote the
    pair of lines of a kernel it does not skip, however it went on. *)
Lemma compileKernel_out P Kernel SizeInfo node s s' r :
  compileKernel P Kernel SizeInfo node s = (s', r) ->
  (out s' = out s /\ (forall k, r <> Err (PassFailed k)) /\
   (r = Ok tt ->
    exists k, kernelName node = Some k /\ compiled Kernel k = false)) \/
  (exists k, kernelName node = Some k /\ compiled Kernel k = true /\
     out s' = out s +:+ headerLines k /\
     forall k', r = Err (PassFailed k') -> k' = k).
Proof.
  unfold compileKernel. intros H.
  destruct node as [| v node].
  { injection H as <- <-. left. by repeat split. }
  unfold bind at 1 in H. simpl in H.
  destruct v as [name | bits z |]; simpl in H;
    try (unfold bind at 1 in H; simpl in H; injection H as <- <-; left;
         by repeat split).
  unfold bind at 1 in H. simpl in H.
  destruct (getFunction (module s) name) as [K |] eqn:HK; simpl in H.
  2: { injection H as <- <-. left. by repeat split. }
  pose proof (getFunction_name _ _ _ HK) as HnK. subst name.
  rewrite skipped_compiled in H.
  destruct (compiled Kernel (fname K)) eqn:Hc; simpl in H.
  2: { injection H as <- <-. left. repeat split; try done. eauto. }
  right. exists (fname K). do 2 (split; [done |]).
  unfold bind at 1 in H. simpl in H. unfold bind at 1 in H. simpl in H.
  match type of H with
  | ?m ?s2 = _ => assert (quiet (fname K) m) as Hq
  end.
  { apply (quiet_bind _ _ _ (fun K1 => fname K1 = fname K)).
    { apply quiet_runFunctionPass. }
    { intros s1 s2 K1 H1. apply runFunctionPass_Ok in H1 as (bs & _ & -> & _).
      done. }
    intros K1 HK1.
    do 3 (apply quiet_seq; [apply quiet_readLocalSize |]; intros ?).
    apply quiet_seq.
    { destruct SizeInfo as [nodes |]; [| apply quiet_ret].
      apply quiet_forEach. intros x. apply quiet_overrideLocalSize. }
    intros _.
    apply (quiet_bind _ _ _ (fun _ => True)); [| done |].
    { unfold runWR. apply quiet_seq; [apply quiet_recordCall |]. intros _.
      intros s1 s2 r1 H1. rewrite <- HK1.
      by apply quiet_runFunctionPass in H1. }
    intros K2 _.
    do 3 (apply quiet_seq; [apply quiet_writeLocalSize |]; intros ?).
    apply quiet_seq; [apply quiet_getModule |]. intros M. cbv zeta.
    apply quiet_seq; [apply quiet_setModule |]. intros _.
    apply quiet_createWorkgroup. }
  apply Hq in H as [Ho He]. split; [| done].
  rewrite Ho. cbn [out].
  unfold headerLines. by rewrite !append_assoc.
Qed.

(** The header after the kernel loop, however the loop ends: the pairs
    of the compiled kernels among the nodes the loop got to. *)
Lemma kernelLoop_out P Kernel SizeInfo nodes s s' r :
  forEach nodes (compileKernel P Kernel SizeInfo) s = (s', r) ->
  exists reached rest,
    nodes = reached ++ rest /\
    out s' = out s +:+ headerText (compiledKernels Kernel reached) /\
    (r = Ok tt -> rest = []) /\
    (forall k, r = Err (PassFailed k) ->
       exists pre node, reached = pre ++ [node] /\
                        kernelName node = Some k /\
                        compiled Kernel k = true).
Proof.
  revert s. induction nodes as [| node nodes IH]; intros s H; simpl in H.
  - injection H as <- <-. exists [], []. simpl.
    rewrite append_nil_r. by repeat split.
  - unfold bind in H.
    destruct (compileKernel P Kernel SizeInfo node s) as [s1 [[] | e]] eqn:H1.
    + apply IH in H as (reached & rest & -> & Ho & Hok & Hfail).
      exists (node :: reached), rest. split; [done |].
      split; [| split; [done |]].
      * apply compileKernel_out in H1
          as [(Ho1 & _ & Hsk) | (k & Hk & Hc & Ho1 & _)].
        -- destruct (Hsk eq_refl) as (k & Hk & Hc).
           rewrite (compiledKernels_cons _ _ _ _ Hk), Hc. congruence.
        -- rewrite (compiledKernels_cons _ _ _ _ Hk), Hc, Ho, Ho1. simpl.
           by rewrite append_assoc.
      * intros k Hr. destruct (Hfail k Hr) as (pre & n & -> & Hn).
        by exists (node :: pre), n.
    + injection H as <- <-.
      apply compileKernel_out in H1
        as [(Ho1 & Hnp & _) | (k & Hk & Hc & Ho1 & Hfail)].
      * exists [], (node :: nodes). simpl. rewrite append_nil_r.
        repeat split; try done. intros k Hr. by destruct (Hnp k).
      * exists [node], nodes.
        rewrite (compiledKernels_cons _ _ _ _ Hk), Hc. simpl.
        rewrite append_nil_r.
        repeat split; try done. intros k' Hr.
        rewrite (Hfail k' Hr). by exists [], node.
Qed.

(** ** The claims about the synthesised functions *)

(** C1 (the code departs from it). For every kernel [k] with [n]
    declared parameters that the pass compiles, with the names [_k] and
    [_k_workgroup] free in the module, the block of the entry point
    consists of the groups that unpack entries [0 .. n-1] of the
    argument array, one per parameter and in declaration order, followed
    by one more group: it takes the address of entry [n], loads the
    pointer stored there, casts it to a pointer to the context pointer
    type and loads through it. Only then comes the call of the launcher
    with the [n] values loaded first and the context pointer (argument 1
    of the entry point) last. So an entry past the declared parameters
    is read and dereferenced. *)
Theorem workgroup_reads_entry_past_parameters
    P Kernel SizeInfo node s s' k :
  compileKernel P Kernel SizeInfo node s = (s', Ok tt) ->
  kernelName node = Some k ->
  compiled Kernel k = true ->
  nameTaken (module s) ("_" +:+ k) = false ->
  nameTaken (module s) ("_" +:+ k +:+ "_workgroup") = false ->
  exists K W b arguments,
    let n := length (fparams K) in
    getFunction (module s) k = Some K /\
    getFunction (module s') ("_" +:+ k +:+ "_workgroup") = Some W /\
    workgroupLoads (fparams K) 0 (Arg 0) [] [] = (b, arguments) /\
    length arguments = n /\
    fblocks W =
      [ b ++
        [ GetElementPtr false (Arg 0) [ConstantInt 32 (Z.of_nat n)];
          Load (Inst (length b));
          BitCast (Inst (length b + 1))
                  (getPointerTo TypeBuilder.PoclContextPtr);
          Load (Inst (length b + 2));
          Call ("_" +:+ k) (arguments ++ [Arg 1]);
          RetVoid ] ].
Proof.
  intros H Hk Hc HfreeL HfreeW.
  destruct (compileKernel_synthesis _ _ _ _ _ _ _ H Hk Hc HfreeL)
    as (K & body & W & Hname & HK & Hbody & _ & HW & _ & _ & _ & Hnew).
  rewrite (Hnew HfreeW) in *.
  destruct (launcherOf_frame (module s) K) as (HnL & _ & HpL & _ & _).
  pose proof (workgroupBody_launcher _ _ HpL) as Hclosed.
  destruct (workgroupLoads (fparams K) 0 (Arg 0) [] []) as [b arguments] eqn:Hl.
  exists K, (workgroupOf (launcherOf (module s) K) body), b, arguments.
  cbv zeta. repeat split; try done.
  - pose proof (workgroupLoads_length (fparams K) 0 (Arg 0) [] []) as Hlen.
    by rewrite Hl in Hlen.
  - rewrite Hclosed in Hbody. injection Hbody as <-.
    simpl. rewrite HnL, Hname. reflexivity.
Qed.





(** ** The claims about the kernel loop *)



(** The pass, as a function of what the kernel loop does. *)
Lemma runOnModule_eq P Kernel ext M :
  runOnModule P Kernel (initState ext M) =
  match getNamedMetadata M "opencl.kernels" with
  | None =>
      (mkState ext "" (normalize P M) [], Err (NullMetadata "opencl.kernels"))
  | Some nodes =>
      match forEach nodes
              (compileKernel P Kernel
                 (getNamedMetadata M "opencl.kernel_wg_size_info"))
              (mkState ext "" (normalize P M) []) with
      | (s', Ok _) => (s', Ok true)
      | (s', Err e) => (s', Err e)
      end
  end.
Proof.
  unfold runOnModule, initState.
  unfold bind at 1. simpl. unfold bind at 1. simpl.
  unfold bind at 1. simpl. unfold bind at 1. simpl.
  unfold bind at 1. simpl.
  rewrite !getNamedMetadata_normalize.
  destruct (getNamedMetadata M "opencl.kernels") as [nodes |]; simpl; [| done].
  unfold bind. by destruct (forEach _ _ _) as [s1 [u | e]].
Qed.


(** C9 (as amended). However the pass ends, the text written to the
    header is, for each kernel the loop got to and did not skip, in the
    order of the kernel metadata and for no other, the pair of lines
    [#define _<kernel>_NUM_LOCALS 0] and [#define _<kernel>_LOCAL_SIZE {}].
    The two values are the constants [0] and [{}]: the text depends on
    the names of the kernels and on nothing else. When the pass returns,
    the loop got to every kernel; when a function pass fails on a
    kernel, the pair of that kernel is the last one in the header. *)
Theorem header_pair_per_compiled_kernel P Kernel ext M s' r :
  runOnModule P Kernel (initState ext M) = (s', r) ->
  exists reached rest,
    default [] (getNamedMetadata M "opencl.kernels") = reached ++ rest /\
    out s' = headerText (compiledKernels Kernel reached) /\
    (isOk r = true -> rest = []) /\
    (forall k, r = Err (PassFailed k) ->
       exists pre node, reached = pre ++ [node] /\
                        kernelName node = Some k /\
                        compiled Kernel k = true) /\
    forall name,
      headerLines name =
        "#define _" +:+ name +:+ "_NUM_LOCALS 0" +:+ nl +:+
        "#define _" +:+ name +:+ "_LOCAL_SIZE {}" +:+ nl.
Proof.
  rewrite runOnModule_eq. intros H.
  assert (forall name,
            headerLines name =
              "#define _" +:+ name +:+ "_NUM_LOCALS 0" +:+ nl +:+
              "#define _" +:+ name +:+ "_LOCAL_SIZE {}" +:+ nl) as Hlines.
  { intros name. unfold headerLines. by rewrite !append_assoc. }
  destruct (getNamedMetadata M "opencl.kernels") as [nodes |]; simpl.
  2: { injection H as <- <-. exists [], []. by repeat split. }
  destruct (forEach _ _ _) as [s1 r1] eqn:Hloop.
  apply kernelLoop_out in Hloop as (reached & rest & -> & Ho & Hok & Hfail).
  simpl in Ho. exists reached, rest.
  destruct r1 as [[] | e]; injection H as <- <-;
    repeat split; try done; auto.
  intros k [= ->]. by apply Hfail.
Qed.

Lemma compileKernel_skip P Kernel SizeInfo node s name K :
  kernelName node = Some name ->
  getFunction (module s) name = Some K ->
  compiled Kernel name = false ->
  compileKernel P Kernel SizeInfo node s = (s, Ok tt).
Proof.
  intros Hn HK Hc. unfold compileKernel.
  destruct node as [| [name' | |] node]; simpl in Hn; try discriminate.
  injection Hn as ->.
  unfold bind at 1. simpl. unfold bind at 1. simpl. rewrite HK. simpl.
  rewrite skipped_compiled.
  pose proof (getFunction_name _ _ _ HK) as ->. by rewrite Hc.
Qed.


(** C10 (as amended). With a kernel-name filter configured, an iteration
    of the kernel loop on a kernel of another name changes nothing at
    all: header, module, local size and the record of replication runs
    stay as they were, and the iteration ends normally. When no kernel of
    the module has the filter's name, the pass returns [true], having
    written nothing to the header and done nothing to the module beyond
    what precedes the kernel loop. That part is not filtered: every
    function with a body, a skipped kernel included, is given internal
    linkage, and all functions are handed to the inliner. *)
Theorem filter_skips_silently P Kernel :
  Kernel <> "" ->
  (forall SizeInfo node s name K,
     kernelName node = Some name ->
     getFunction (module s) name = Some K ->
     name <> Kernel ->
     compileKernel P Kernel SizeInfo node s = (s, Ok tt)) /\
  (forall ext M nodes,
     getNamedMetadata M "opencl.kernels" = Some nodes ->
     (forall node, In node nodes ->
        exists name, kernelName node = Some name /\ name <> Kernel /\
                     is_Some (getFunction (normalize P M) name)) ->
     runOnModule P Kernel (initState ext M)
       = (mkState ext "" (normalize P M) [], Ok true)) /\
  (forall M,
     FunctionList (normalize P M)
     = BasicInliner_inlineFunctions P (map internalize (FunctionList M))) /\
  (forall F,
     flinkage (internalize F)
     = if isDeclaration F then flinkage F else InternalLinkage).
Proof.
  intros HK.
  assert (forall name, name <> Kernel -> compiled Kernel name = false) as Hskip.
  { intros name Hne. unfold compiled.
    apply String.eqb_neq in HK, Hne. by rewrite HK, Hne. }
  split; [| split; [| split]].
  - intros SizeInfo node s name K Hn HF Hne.
    eapply compileKernel_skip; eauto.
  - intros ext M nodes Hnodes Hall.
    rewrite runOnModule_eq, Hnodes.
    set (SizeInfo := getNamedMetadata _ _).
    set (s0 := mkState ext "" (normalize P M) []).
    assert (forEach nodes (compileKernel P Kernel SizeInfo) s0 = (s0, Ok tt))
      as ->; [| done].
    clear Hnodes. induction nodes as [| node nodes IH]; [done |].
    simpl. unfold bind at 1.
    destruct (Hall node) as (name & Hn & Hne & [K HF]); [by left |].
    rewrite (compileKernel_skip P Kernel SizeInfo node s0 name K)
      by auto.
    apply IH. intros node' Hin. apply Hall. by right.
  - reflexivity.
  - intros F. unfold internalize. by destruct (isDeclaration F).
Qed.

(** Before the inliner runs, every function of the module that has a
    body has internal linkage, and a declaration keeps its linkage. *)
Lemma internalize_linkage F :
  flinkage (internalize F)
  = if isDeclaration F then flinkage F else InternalLinkage.
Proof. unfold internalize. by destruct (isDeclaration F). Qed.

Lemma normalize_runs_inliner_on_internalized P M :
  FunctionList (normalize P M)
  = BasicInliner_inlineFunctions P (map internalize (FunctionList M)).
Proof. reflexivity. Qed.

(** ** Work-item replication of a kernel without barriers *)

Module ReplicationProofs.

Import WorkitemReplication.

Section Simulation.

Context {R : Type} `{EqDecision R}.

Lemma eval_clone (w : nat) (l l' : lid) (rho : R -> Z) (Rho : nat * R -> Z) (mu : memory)
    (e : expr R) :
  (forall r, Rho (w, r) = rho r) ->
  eval l' Rho mu (cloneExpr w l e) = eval l rho mu e.
Proof.
  intros Hagree. induction e as [z | r | d | b idx IH | op e1 IH1 e2 IH2];
    simpl; try done.
  - by rewrite IH.
  - by rewrite IH1, IH2.
Qed.

Lemma eval_sim (w : nat) (Rho0 : nat * R -> Z) (l l' : lid)
    (st : (R -> Z) * memory) (St : (nat * R -> Z) * memory) (e : expr R) :
  sim w Rho0 st St ->
  eval l' (fst St) (snd St) (cloneExpr w l e) = eval l (fst st) (snd st) e.
Proof. intros (Hmu & Hagree & _). rewrite Hmu. by apply eval_clone. Qed.

Lemma whileLoop_sim (w : nat) (Rho0 : nat * R -> Z)
    (cont : (R -> Z) * memory -> bool) (Cont : (nat * R -> Z) * memory -> bool)
    (body : (R -> Z) * memory -> option ((R -> Z) * memory))
    (Body : (nat * R -> Z) * memory -> option ((nat * R -> Z) * memory))
    (k : nat) :
  (forall st St, sim w Rho0 st St -> Cont St = cont st) ->
  (forall st St, sim w Rho0 st St -> simOpt w Rho0 (body st) (Body St)) ->
  forall st St, sim w Rho0 st St ->
    simOpt w Rho0 (whileLoop cont body k st) (whileLoop Cont Body k St).
Proof.
  intros Hcont Hbody. induction k as [| k IH]; intros st St Hsim; simpl.
  - done.
  - rewrite (Hcont _ _ Hsim). destruct (cont st); [| done].
    pose proof (Hbody _ _ Hsim) as Hb. unfold simOpt in Hb.
    destruct (body st) as [st' |], (Body St) as [St' |]; try done.
    by apply IH.
Qed.

Lemma exec_clone (fuel w : nat) (Rho0 : nat * R -> Z) (l l' : lid)
    (c : cmd R) :
  forall st St, sim w Rho0 st St ->
    simOpt w Rho0 (exec fuel l c st) (exec fuel l' (cloneCmd w l c) St).
Proof.
  induction c as [| r e | b idx e | c1 IH1 c2 IH2 | e c1 IH1 c2 IH2 | e c IH];
    intros st St Hsim; simpl.
  - done.
  - rewrite (eval_sim _ _ _ _ _ _ _ Hsim).
    destruct Hsim as (Hmu & Hagree & Hframe). repeat split; simpl.
    + done.
    + intros r'. unfold setReg. rewrite Hagree.
      destruct (decide (r' = r)) as [-> | Hne].
      * by rewrite decide_True.
      * rewrite decide_False; [done | congruence].
    + intros j r' Hj. unfold setReg.
      rewrite decide_False; [by apply Hframe | congruence].
  - rewrite !(eval_sim _ _ _ _ _ _ _ Hsim).
    destruct Hsim as (Hmu & Hagree & Hframe). repeat split; simpl; try done.
    f_equal. exact Hmu.
  - pose proof (IH1 _ _ Hsim) as H1. unfold simOpt in H1.
    destruct (exec fuel l c1 st) as [st1 |],
             (exec fuel l' (cloneCmd w l c1) St) as [St1 |]; try done.
    by apply IH2.
  - rewrite (eval_sim _ _ _ _ _ _ _ Hsim).
    destruct (Z.eqb _ 0); [by apply IH2 | by apply IH1].
  - apply whileLoop_sim; [| done | done].
    intros st0 St0 Hsim0. by rewrite (eval_sim _ _ _ _ _ _ _ Hsim0).
Qed.

(** The clones of the work-items [ls], numbered from [w], against the
    original body run once per work-item. *)
Lemma exec_cloneAll (fuel : nat) (l' : lid) (c : cmd R) (rho : R -> Z)
    (ls : list lid) :
  forall w (Rho : nat * R -> Z) mu,
    (forall j r, (w <= j)%nat -> Rho (j, r) = rho r) ->
    snd <$> exec fuel l' (cloneAll c w ls) (Rho, mu)
    = runEach fuel c rho ls mu.
Proof.
  induction ls as [| l ls IH]; intros w Rho mu Hinit; simpl; [done |].
  assert (sim w Rho (rho, mu) (Rho, mu)) as Hsim.
  { repeat split; simpl; auto. }
  pose proof (exec_clone fuel w Rho l l' c _ _ Hsim) as H1.
  unfold simOpt in H1.
  destruct (exec fuel l c (rho, mu)) as [[rho1 mu1] |],
           (exec fuel l' (cloneCmd w l c) (Rho, mu)) as [[Rho1 mu1'] |];
    try done.
  destruct H1 as (Hmu & _ & Hframe). simpl in *. subst mu1'.
  apply IH. intros j r Hj.
  rewrite Hframe by lia. apply Hinit. lia.
Qed.

End Simulation.

Lemma workitems_line n : workitems n 1 1 = localIds n.
Proof. unfold workitems, localIds. simpl. by rewrite !app_nil_r. Qed.

(** C4. For every kernel body without barriers, every [n], every
    content [mu] of the buffers and every initial content [rho] of the
    private variables: running the function that work-item replication
    yields for the local size [(n, 1, 1)] once gives the buffers that
    running the original body [n] times in a row gives, with the local
    id set to [0], ..., [n-1] in turn. The two runs also agree on
    whether they end within the loop bound [fuel]. The local id [l']
    under which the replicated function itself runs does not matter. *)
Theorem replication_equivalence {R : Type} `{EqDecision R}
    (c : cmd R) (n fuel : nat) (l' : lid) (rho : R -> Z) (mu : memory) :
  snd <$> exec fuel l' (runOnFunction (n, 1%nat, 1%nat) c)
            (fun p => rho (snd p), mu)
  = runEach fuel c rho (localIds n) mu.
Proof.
  unfold runOnFunction. rewrite workitems_line.
  by apply exec_cloneAll.
Qed.

End ReplicationProofs.

(** ** The claims at sample inputs *)

(** The entry point built for the one-parameter kernel [k2]: entries 0
    and 1 of the argument array are both read and dereferenced. *)
Example workgroup_of_k2 :
  fblocks <$> getFunction (module Samples.after1) "_k2_workgroup" =
  Some [ [ GetElementPtr false (Arg 0) [ConstantInt 32 0];
           Load (Inst 0);
           BitCast (Inst 1) (PointerTy (PointerTy (IntegerTy 32) 1) 0);
           Load (Inst 2);
           GetElementPtr false (Arg 0) [ConstantInt 32 1];
           Load (Inst 4);
           BitCast (Inst 5)
                   (PointerTy (PointerTy TypeBuilder.PoclContext 0) 0);
           Load (Inst 6);
           Call "_k2" [Inst 3; Arg 1];
           RetVoid ] ].
Proof. vm_compute. reflexivity. Qed.

Example replicated_increment :
  (fun mu => (mu !! (0%nat, 0), mu !! (0%nat, 1), mu !! (0%nat, 2))) <$>
    (snd <$> WorkitemReplication.exec 0 (7, 7, 7)
       (WorkitemReplication.runOnFunction (3, 1, 1)%nat Samples.increment)
       (fun _ => 0, Samples.buffer3))
  = Some (Some 11, Some 21, Some 31).
Proof. vm_compute. reflexivity. Qed.

Lemma workgroup_reads_entry_past_parameters_witness :
  exists K W b arguments,
    let n := length (fparams K) in
    getFunction (module Samples.start1) "k2" = Some K /\
    getFunction (module Samples.after1) ("_" +:+ "k2" +:+ "_workgroup")
      = Some W /\
    workgroupLoads (fparams K) 0 (Arg 0) [] [] = (b, arguments) /\
    length arguments = n /\
    fblocks W =
      [ b ++
        [ GetElementPtr false (Arg 0) [ConstantInt 32 (Z.of_nat n)];
          Load (Inst (length b));
          BitCast (Inst (length b + 1))
                  (getPointerTo TypeBuilder.PoclContextPtr);
          Load (Inst (length b + 2));
          Call ("_" +:+ "k2") (arguments ++ [Arg 1]);
          RetVoid ] ].
Proof.
  apply (workgroup_reads_entry_past_parameters
           Samples.idPasses "" None Samples.node2
           Samples.start1 Samples.after1 "k2");
    vm_compute; reflexivity.
Defined.



(** In a module that has a function [_k2] and a global [_k21] already,
    the launcher of [k2] is [_k22] and the entry point [_k22_workgroup]. *)
Example entry_point_after_clash :
  map fname (FunctionList (module MoreSamples.afterClash))
  = ["k2"; "_k2"; "_k22"; "_k22_workgroup"] /\
  LastUnique (module MoreSamples.afterClash) = 2%nat /\
  (fun W => callsOf <$> last (fblocks W)) <$>
    getFunction (module MoreSamples.afterClash) "_k22_workgroup"
  = Some (Some [("_k22", [Inst 3; Arg 1])]).
Proof. vm_compute. repeat split; reflexivity. Qed.




Example launcher_of_k :
  fblocks <$> getFunction (module Samples.after2) "_k"
  = Some [ [ GetElementPtr true (Arg 2) [ConstantInt 32 0; ConstantInt 32 2];
             Load (Inst 0);
             Store (Inst 1) (GlobalRef "_group_id");
             GetElementPtr true (Arg 2) [ConstantInt 32 0; ConstantInt 32 1];
             Load (Inst 3);
             Store (Inst 4) (GlobalRef "_num_groups");
             Call "k" [Arg 0; Arg 1];
             RetVoid ] ].
Proof. vm_compute. reflexivity. Qed.




(** The sizes the two kernels of [unit2] were replicated with. *)
Example sizes_in_unit2 :
  WR_calls Samples.done2 = [("k", [4; 4; 1]); ("k2", [8; 8; 1])] /\
  LocalSize Samples.done2 = [8; 8; 1].
Proof. vm_compute. split; reflexivity. Qed.

(** The pass on [unit2] with a barrier tail replication that fails on
    the first kernel. *)
Lemma header_pair_per_compiled_kernel_witness :
  exists reached rest,
    default [] (getNamedMetadata Samples.unit2 "opencl.kernels")
    = reached ++ rest /\
    out (fst MoreSamples.failedBTR2)
    = headerText (compiledKernels "" reached) /\
    (isOk (snd MoreSamples.failedBTR2) = true -> rest = []) /\
    (forall k, snd MoreSamples.failedBTR2 = Err (PassFailed k) ->
       exists pre node, reached = pre ++ [node] /\
                        kernelName node = Some k /\
                        compiled "" k = true) /\
    forall name,
      headerLines name =
        "#define _" +:+ name +:+ "_NUM_LOCALS 0" +:+ nl +:+
        "#define _" +:+ name +:+ "_LOCAL_SIZE {}" +:+ nl.
Proof.
  apply (header_pair_per_compiled_kernel Samples.failingBTR ""
           [8; 8; 1] Samples.unit2).
  vm_compute. reflexivity.
Defined.

(** C9, as the claim states it, fails. The kernels [k] and [k2] differ
    in their parameters and bodies and are replicated with the local
    sizes (4, 4, 1) and (16, 16, 2), yet the header gives both the count
    [0] and the size [{}]. And a kernel whose barrier tail replication
    fails has its pair in the header without having been compiled: no
    launcher exists for it. *)
Lemma header_pair_per_compiled_kernel_counterexample :
  snd MoreSamples.runSized = Ok true /\
  WR_calls (fst MoreSamples.runSized)
  = [("k", [4; 4; 1]); ("k2", [16; 16; 2])] /\
  out (fst MoreSamples.runSized) =
    "#define _k_NUM_LOCALS 0" +:+ nl +:+ "#define _k_LOCAL_SIZE {}" +:+ nl +:+
    "#define _k2_NUM_LOCALS 0" +:+ nl +:+ "#define _k2_LOCAL_SIZE {}" +:+ nl /\
  snd MoreSamples.failedBTR2 = Err (PassFailed "k") /\
  out (fst MoreSamples.failedBTR2) =
    "#define _k_NUM_LOCALS 0" +:+ nl +:+ "#define _k_LOCAL_SIZE {}" +:+ nl /\
  map fname (FunctionList (module (fst MoreSamples.failedBTR2)))
  = ["k"; "k2"].
Proof. vm_compute. repeat split; reflexivity. Qed.

Example header_of_unit2 :
  out Samples.done2 =
    "#define _k_NUM_LOCALS 0" +:+ nl +:+ "#define _k_LOCAL_SIZE {}" +:+ nl +:+
    "#define _k2_NUM_LOCALS 0" +:+ nl +:+ "#define _k2_LOCAL_SIZE {}" +:+ nl.
Proof. vm_compute. reflexivity. Qed.

(** A filter that names no kernel of [unit2]. *)
Lemma filter_skips_silently_witness :
  (forall SizeInfo node s name K,
     kernelName node = Some name ->
     getFunction (module s) name = Some K ->
     name <> "other" ->
     compileKernel Samples.idPasses "other" SizeInfo node s = (s, Ok tt)) /\
  (forall ext M nodes,
     getNamedMetadata M "opencl.kernels" = Some nodes ->
     (forall node, In node nodes ->
        exists name, kernelName node = Some name /\ name <> "other" /\
                     is_Some (getFunction (normalize Samples.idPasses M) name)) ->
     runOnModule Samples.idPasses "other" (initState ext M)
       = (mkState ext "" (normalize Samples.idPasses M) [], Ok true)) /\
  (forall M,
     FunctionList (normalize Samples.idPasses M)
     = BasicInliner_inlineFunctions Samples.idPasses
         (map internalize (FunctionList M))) /\
  (forall F,
     flinkage (internalize F)
     = if isDeclaration F then flinkage F else InternalLinkage).
Proof.
  apply (filter_skips_silently Samples.idPasses "other"). discriminate.
Defined.

(** C10, as the claim states it, fails: with the filter [k2] the kernel
    [k] of [unit2] is skipped by the kernel loop, which adds no launcher
    and no entry point for it, but it is not left alone: its linkage,
    external before the pass, is internal afterwards. *)
Lemma filter_skips_silently_counterexample :
  snd MoreSamples.filtered2 = Ok true /\
  flinkage <$> getFunction Samples.unit2 "k" = Some ExternalLinkage /\
  flinkage <$> getFunction (module (fst MoreSamples.filtered2)) "k"
  = Some InternalLinkage /\
  map fname (FunctionList (module (fst MoreSamples.filtered2)))
  = ["k"; "k2"; "_k2"; "_k2_workgroup"] /\
  out (fst MoreSamples.filtered2) =
    "#define _k2_NUM_LOCALS 0" +:+ nl +:+ "#define _k2_LOCAL_SIZE {}" +:+ nl.
Proof. vm_compute. repeat split; reflexivity. Qed.

Example filter_matching_nothing :
  runOnModule Samples.idPasses "other" (initState [8; 8; 1] Samples.unit2)
  = (mkState [8; 8; 1] "" (normalize Samples.idPasses Samples.unit2) [],
     Ok true).
Proof. vm_compute. reflexivity. Qed.

(** ** Runs that return *)

Lemma overrideLocalSize_returns K node s :
  (3 <= length (LocalSize s))%nat ->
  sizeNodeOk (fname K) node = true ->
  exists s', overrideLocalSize K node s = (s', Ok tt) /\
             (3 <= length (LocalSize s'))%nat.
Proof.
  intros Hlen Hok. unfold overrideLocalSize.
  destruct node as [| v node]; [discriminate |].
  unfold bind at 1. simpl.
  destruct v as [name | |]; simpl in *; try by eauto.
  destruct (String.eqb name (fname K)); [| by eauto].
  destruct node as [| [| bx x |] [| [| by' y |] [| [| bz z |] node]]];
    try discriminate.
  unfold bind at 1. simpl.
  unfold bind at 1. unfold writeLocalSize at 1.
  rewrite decide_True by lia. cbn [LocalSize out module WR_calls].
  unfold bind at 1. simpl.
  unfold bind at 1. unfold writeLocalSize at 1.
  cbn [LocalSize out module WR_calls].
  rewrite decide_True by (rewrite length_insert; lia).
  unfold bind at 1. simpl.
  unfold writeLocalSize. cbn [LocalSize out module WR_calls].
  rewrite decide_True by (rewrite !length_insert; lia).
  eexists. split; [reflexivity |]. simpl. rewrite !length_insert. lia.
Qed.

Lemma forEach_override_returns K nodes s :
  (3 <= length (LocalSize s))%nat ->
  forallb (sizeNodeOk (fname K)) nodes = true ->
  exists s', forEach nodes (overrideLocalSize K) s = (s', Ok tt).
Proof.
  revert s. induction nodes as [| node nodes IH]; intros s Hlen Hok; simpl.
  - by eexists.
  - simpl in Hok. apply andb_true_iff in Hok as [Hnode Hok].
    destruct (overrideLocalSize_returns K node s Hlen Hnode)
      as (s1 & Hs1 & Hlen1).
    unfold bind. rewrite Hs1. by apply IH.
Qed.

Lemma length_sizeFor SizeInfo ext k :
  length (sizeFor SizeInfo ext k) = length ext.
Proof.
  unfold sizeFor. destruct SizeInfo as [nodes |]; [| done].
  destruct (requiredSize k nodes); [apply length_withSize | done].
Qed.

(** With the two names free, [createWorkgroup] returns on the launcher
    that [createLauncher] made. *)
Lemma createWorkgroup_returns M K :
  nameTaken M ("_" +:+ fname K) = false ->
  nameTaken M ("_" +:+ fname K +:+ "_workgroup") = false ->
  let LM := createLauncher M K in
  let L := noaliasArguments (addFnAttr NoInline (fst LM)) in
  exists M', createWorkgroup (replaceFunction L (snd LM)) L = (M', Ok tt).
Proof.
  intros HfreeL HfreeW. cbv zeta. rewrite createLauncher_eq.
  unfold launcherName. rewrite (uniqueName_same _ _ HfreeL). cbn [fst snd].
  set (L0 := mkFunction _ _ _ _ _ _).
  change (noaliasArguments (addFnAttr NoInline L0)) with (launcherOf M K).
  destruct (launcherOf_frame M K) as (HnL & _ & HpL & _).
  rewrite replaceFunction_push; [| by apply nameTaken_false | by rewrite HnL].
  pose proof (workgroupBody_launcher _ _ HpL) as Hbody.
  destruct (workgroupLoads (fparams K) 0 (Arg 0) [] []) as [b arguments].
  unfold createWorkgroup, getOrInsertFunction, getNamedValue.
  rewrite HnL, Hbody.
  assert ("_" +:+ fname K <> ("_" +:+ fname K) +:+ "_workgroup") as Hne
    by (by apply append_neq).
  rewrite getFunction_push_ne by (by rewrite HnL).
  rewrite getFunction_setLastUnique.
  unfold nameTaken in HfreeW.
  change (("_" +:+ fname K) +:+ "_workgroup")
    with ("_" +:+ fname K +:+ "_workgroup").
  change (findGlobal (pushFunction (launcherOf M K)
                        (setLastUnique (LastUnique M) M))
            ("_" +:+ fname K +:+ "_workgroup"))
    with (findGlobal M ("_" +:+ fname K +:+ "_workgroup")).
  destruct (getFunction M ("_" +:+ fname K +:+ "_workgroup"));
    [discriminate |].
  destruct (findGlobal M ("_" +:+ fname K +:+ "_workgroup"));
    [discriminate |].
  simpl. eauto.
Qed.

(** X10. An iteration of the kernel loop on a compiled kernel returns
    normally when the node names a function of the module, every node of
    the size metadata has a first operand and, where that is the kernel,
    three integer constants after it, the two function passes return,
    [LocalSize] has at least three entries and the names of the launcher
    and of the entry point are free in the module. *)
Lemma compileKernel_returns P Kernel SizeInfo node s k K bs1 bs2 :
  kernelName node = Some k ->
  getFunction (module s) k = Some K ->
  compiled Kernel k = true ->
  (3 <= length (LocalSize s))%nat ->
  sizeInfoOk k SizeInfo = true ->
  BTR_runOnFunction P K = Some bs1 ->
  WR_runOnFunction P (replaceFunction (setBlocks bs1 K) (module s))
    (sizeFor SizeInfo (LocalSize s) k) (setBlocks bs1 K) = Some bs2 ->
  nameTaken (module s) ("_" +:+ k) = false ->
  nameTaken (module s) ("_" +:+ k +:+ "_workgroup") = false ->
  exists s', compileKernel P Kernel SizeInfo node s = (s', Ok tt).
Proof.
  intros Hk HK Hc Hlen Hsizes Hbtr Hwr HfreeL HfreeW.
  pose proof (getFunction_name _ _ _ HK) as Hname.
  destruct node as [| [name | |] node]; simpl in Hk; try discriminate.
  injection Hk as ->.
  unfold compileKernel.
  unfold bind at 1. simpl. unfold bind at 1. simpl. rewrite HK. simpl.
  rewrite skipped_compiled, Hname, Hc. simpl.
  unfold bind at 1. simpl. unfold bind at 1. simpl.
  unfold bind at 1. unfold runFunctionPass at 1. rewrite Hbtr.
  cbn [LocalSize out module WR_calls].
  destruct (LocalSize s) as [| x0 [| x1 [| x2 rest]]] eqn:Hls;
    simpl in Hlen; try lia.
  do 3 (unfold bind at 1; unfold readLocalSize at 1;
        cbn [LocalSize out module WR_calls]; try rewrite Hls; simpl).
  set (s1 := mkState _ _ _ _).
  assert (exists s0,
    match SizeInfo with
    | Some nodes => forEach nodes (overrideLocalSize (setBlocks bs1 K))
    | None => ret tt
    end s1 = (s0, Ok tt) /\
    out s0 = out s1 /\ module s0 = module s1 /\ WR_calls s0 = WR_calls s1 /\
    LocalSize s0 = sizeFor SizeInfo (x0 :: x1 :: x2 :: rest) k)
    as (s0 & Hloop & Ho & Hm & Hcs & Hl).
  { unfold sizeFor. destruct SizeInfo as [nodes |].
    - destruct (forEach_override_returns (setBlocks bs1 K) nodes s1)
        as (s0 & Hs0).
      + simpl. lia.
      + simpl. rewrite Hname. exact Hsizes.
      + exists s0. split; [done |].
        apply forEach_override_Ok in Hs0 as (? & ? & ? & Hl).
        repeat split; try done.
        rewrite Hl. simpl. by rewrite Hname.
    - exists s1. by repeat split. }
  unfold bind at 1. rewrite Hloop.
  assert (3 <= length (LocalSize s0))%nat as Hlen0.
  { rewrite Hl, length_sizeFor. simpl. lia. }
  unfold runWR. unfold bind at 1. unfold bind at 1. simpl.
  unfold runFunctionPass at 1. cbn [LocalSize out module WR_calls].
  rewrite Hm, Hl. subst s1. cbn [LocalSize out module WR_calls].
  rewrite Hname, Hwr.
  unfold bind at 1. unfold writeLocalSize at 1.
  cbn [LocalSize out module WR_calls].
  rewrite decide_True by (rewrite length_sizeFor; simpl; lia).
  unfold bind at 1. unfold writeLocalSize at 1.
  cbn [LocalSize out module WR_calls].
  rewrite decide_True
    by (rewrite length_insert, length_sizeFor; simpl; lia).
  unfold bind at 1. unfold writeLocalSize at 1.
  cbn [LocalSize out module WR_calls].
  rewrite decide_True
    by (rewrite !length_insert, length_sizeFor; simpl; lia).
  unfold bind at 1. simpl.
  unfold bind at 1. simpl.
  unfold onModule. cbn [module LocalSize out WR_calls].
  set (K2 := setBlocks bs2 (setBlocks bs1 K)).
  set (Mwr := replaceFunction K2 (replaceFunction _ (module s))).
  destruct (createWorkgroup_returns Mwr K2) as (M' & HM').
  { unfold Mwr. rewrite !nameTaken_replace. unfold K2.
    cbn [fname setBlocks]. by rewrite Hname. }
  { unfold Mwr. rewrite !nameTaken_replace. unfold K2.
    cbn [fname setBlocks]. by rewrite Hname. }
  cbv zeta in HM'. rewrite HM'. eauto.
Qed.

Lemma compileKernel_returns_witness :
  exists s',
    compileKernel Samples.idPasses "" None Samples.node2 Samples.start1
    = (s', Ok tt).
Proof.
  apply (compileKernel_returns Samples.idPasses "" None Samples.node2
           Samples.start1 "k2" Samples.k2
           (fblocks Samples.k2) (fblocks Samples.k2));
    vm_compute; (reflexivity || lia).
Defined.

(** * Further properties of the pass *)

(** ** The loop of [createWorkgroup] *)

(** X1. For every kernel the pass compiles, with the names [_k] and
    [_k_workgroup] free in the module, and every parameter [i] of the
    kernel, of type [t], the block of the entry point holds the group
    that takes the address of entry [i] of the argument array, loads the
    pointer stored there, casts it to a pointer to [t] and loads through
    it; the value loaded is argument [i] of the one call in the block,
    the call of the launcher, whose last argument is the context
    pointer. *)
Theorem entry_point_unpacks_each_parameter P Kernel SizeInfo node s s' k :
  compileKernel P Kernel SizeInfo node s = (s', Ok tt) ->
  kernelName node = Some k ->
  compiled Kernel k = true ->
  nameTaken (module s) ("_" +:+ k) = false ->
  nameTaken (module s) ("_" +:+ k +:+ "_workgroup") = false ->
  exists K W body args,
    getFunction (module s) k = Some K /\
    getFunction (module s') ("_" +:+ k +:+ "_workgroup") = Some W /\
    fblocks W = [body] /\
    callsOf body = [("_" +:+ k, args)] /\
    args !! length (fparams K) = Some (Arg 1) /\
    forall i t, fparams K !! i = Some t ->
      exists pre post,
        let g := loadGroup (Arg 0) i t (length pre) in
        body = pre ++ g ++ post /\
        args !! i = Some (Inst (length pre + length g - 1)).
Proof.
  intros H Hk Hc HfreeL HfreeW.
  destruct (compileKernel_synthesis _ _ _ _ _ _ _ H Hk Hc HfreeL)
    as (K & body & W & Hname & HK & Hbody & _ & HW & _ & _ & _ & Hnew).
  rewrite (Hnew HfreeW) in *.
  destruct (launcherOf_frame (module s) K) as (HnL & _ & HpL & _ & _).
  pose proof (workgroupBody_launcher _ _ HpL) as Hclosed.
  destruct (workgroupLoads_extends (fparams K) 0 (Arg 0) [] [])
    as (b & vs & Hl & Hlen & Hcalls).
  simpl in Hl. rewrite Hl in Hclosed.
  set (tail := loadGroup (Arg 0) (length (fparams K))
                 TypeBuilder.PoclContextPtr (length b)
               ++ [Call (fname (launcherOf (module s) K)) (vs ++ [Arg 1]);
                   RetVoid]) in *.
  assert (body = b ++ tail) as -> by congruence.
  exists K, (workgroupOf (launcherOf (module s) K) (b ++ tail)),
         (b ++ tail), (vs ++ [Arg 1]).
  repeat split; try done.
  - unfold callsOf in *. rewrite omap_app, Hcalls. subst tail.
    rewrite omap_app. fold (callsOf (loadGroup (Arg 0) (length (fparams K))
                                     TypeBuilder.PoclContextPtr (length b))).
    rewrite callsOf_loadGroup. simpl. by rewrite HnL, Hname.
  - rewrite lookup_app_r by lia. by rewrite Hlen, Nat.sub_diag.
  - intros i t Hi.
    destruct (workgroupLoads_positions _ _ _ _ _ _ _ Hl i t Hi)
      as (pre & post & Hb & Ha).
    exists pre, (post ++ tail).
    cbv zeta in *. cbn [Nat.add length] in Hb, Ha. split.
    + rewrite Hb. by rewrite <- !app_assoc.
    + rewrite lookup_app_l; [done |].
      apply lookup_lt_Some in Hi. lia.
Qed.

Lemma entry_point_unpacks_each_parameter_witness :
  exists K W body args,
    getFunction (module Samples.start2) "k" = Some K /\
    getFunction (module Samples.after2) ("_" +:+ "k" +:+ "_workgroup")
      = Some W /\
    fblocks W = [body] /\
    callsOf body = [("_" +:+ "k", args)] /\
    args !! length (fparams K) = Some (Arg 1) /\
    forall i t, fparams K !! i = Some t ->
      exists pre post,
        let g := loadGroup (Arg 0) i t (length pre) in
        body = pre ++ g ++ post /\
        args !! i = Some (Inst (length pre + length g - 1)).
Proof.
  apply (entry_point_unpacks_each_parameter Samples.idPasses "" None
           [MDFunction "k"] Samples.start2 Samples.after2 "k");
    vm_compute; reflexivity.
Defined.

(** X2. [createWorkgroup] builds a block for every function that has a
    parameter, and for no other: on a function without parameters the
    assignment to [arguments.back()] meets an empty vector. The launcher
    always has the context parameter, so the pass never runs into this. *)
Theorem workgroupBody_needs_a_parameter (F : Function) :
  (workgroupBody F = Err EmptyArguments <-> fparams F = []) /\
  (isOk (workgroupBody F) = false <-> fparams F = []) /\
  (forall M K, isOk (workgroupBody (launcherOf M K)) = true).
Proof.
  assert (forall G, fparams G <> [] -> isOk (workgroupBody G) = true) as Hok.
  { intros G HG. unfold workgroupBody.
    pose proof (workgroupLoads_length (fparams G) 0 (Arg 0) [] []) as Hlen.
    destruct (workgroupLoads (fparams G) 0 (Arg 0) [] []) as [b args].
    simpl in Hlen. destruct args as [| a args]; [| done].
    destruct (fparams G); [done | discriminate]. }
  assert (fparams F = [] -> workgroupBody F = Err EmptyArguments) as Hnil.
  { intros HF. unfold workgroupBody. by rewrite HF. }
  repeat split.
  - intros HE. destruct (fparams F) eqn:HF; [done |].
    assert (isOk (workgroupBody F) = true) as Hc
      by (apply Hok; by rewrite HF).
    by rewrite HE in Hc.
  - exact Hnil.
  - intros HE. destruct (fparams F) eqn:HF; [done |].
    assert (isOk (workgroupBody F) = true) as Hc
      by (apply Hok; by rewrite HF).
    by rewrite HE in Hc.
  - intros HF. by rewrite (Hnil HF).
  - intros M K. apply Hok.
    destruct (launcherOf_frame M K) as (_ & _ & -> & _).
    by destruct (fparams K).
Qed.


(** ** Attributes and linkage of the synthesised functions *)

Lemma fattrs_noaliasArguments_loop i count F :
  fattrs (noaliasArguments_loop i count F)
  = rev (map (fun j => (ParamIndex j, NoAlias)) (seq i count)) ++ fattrs F.
Proof.
  revert i F. induction count as [| count IH]; intros i F; [done |].
  cbn [noaliasArguments_loop seq map rev]. rewrite IH.
  unfold setDoesNotAlias, addAttribute. cbn [fattrs].
  rewrite Nat.add_1_r. cbn [attrIndex]. by rewrite <- app_assoc.
Qed.

Lemma index_eqb_eq i j : index_eqb i j = true <-> i = j.
Proof.
  destruct i as [| n |], j as [| m |]; simpl; try (split; congruence).
  rewrite Nat.eqb_eq. split; congruence.
Qed.

Lemma attr_eqb_eq a b : attr_eqb a b = true <-> a = b.
Proof. destruct a, b; simpl; split; congruence. Qed.

Lemma hasAttribute_In i a F : hasAttribute i a F = true <-> In (i, a) (fattrs F).
Proof.
  unfold hasAttribute. rewrite existsb_exists. split.
  - intros ([j b] & Hin & Heq). simpl in Heq.
    apply andb_true_iff in Heq as [Hi Ha].
    apply index_eqb_eq in Hi as ->. by apply attr_eqb_eq in Ha as ->.
  - intros Hin. exists (i, a). split; [done |]. simpl.
    apply andb_true_iff. split; [by apply index_eqb_eq | by apply attr_eqb_eq].
Qed.

Lemma launcherOf_attributes M K i a :
  hasAttribute i a (launcherOf M K) = true <->
  (i = FunctionIndex /\ a = NoInline) \/
  (exists j, (j <= length (fparams K))%nat /\ i = ParamIndex j /\ a = NoAlias).
Proof.
  rewrite hasAttribute_In. unfold launcherOf, noaliasArguments.
  rewrite fattrs_noaliasArguments_loop. cbn [fattrs fparams addFnAttr addAttribute].
  rewrite in_app_iff, <- in_rev, in_map_iff. rewrite length_app. simpl.
  split.
  - intros [(j & Heq & Hin) | [Heq | []]].
    + injection Heq as <- <-. right. exists j.
      apply in_seq in Hin. repeat split; lia.
    + injection Heq as <- <-. by left.
  - intros [[-> ->] | (j & Hj & -> & ->)].
    + right. by left.
    + left. exists j. split; [done |]. apply in_seq. lia.
Qed.

(** X3. For every kernel the pass compiles under the name [_k] of its
    launcher, the attributes of the launcher are exactly these: [noinline] on the function, and [noalias]
    on each of its parameters. Nothing is set on the return value, and
    no parameter carries [noinline]. *)
Theorem launcher_attributes_exactly P Kernel SizeInfo node s s' k :
  compileKernel P Kernel SizeInfo node s = (s', Ok tt) ->
  kernelName node = Some k ->
  compiled Kernel k = true ->
  nameTaken (module s) ("_" +:+ k) = false ->
  exists L,
    getFunction (module s') ("_" +:+ k) = Some L /\
    forall i a,
      hasAttribute i a L = true <->
      (i = FunctionIndex /\ a = NoInline) \/
      (exists j, (j < length (fparams L))%nat /\
                 i = ParamIndex j /\ a = NoAlias).
Proof.
  intros H Hk Hc Hfree.
  destruct (compileKernel_synthesis _ _ _ _ _ _ _ H Hk Hc Hfree)
    as (K & body & W & Hname & HK & _ & HL & _).
  destruct (launcherOf_frame (module s) K) as (HnL & _ & HpL & _).
  exists (launcherOf (module s) K). split; [done |].
  intros i a. rewrite launcherOf_attributes, HpL, length_app. simpl.
  split; (intros [? | (j & Hj & ? & ?)]; [by left | right; exists j]);
    repeat split; try done; lia.
Qed.

Lemma launcher_attributes_exactly_witness :
  exists L,
    getFunction (module Samples.after1) ("_" +:+ "k2") = Some L /\
    forall i a,
      hasAttribute i a L = true <->
      (i = FunctionIndex /\ a = NoInline) \/
      (exists j, (j < length (fparams L))%nat /\
                 i = ParamIndex j /\ a = NoAlias).
Proof.
  apply (launcher_attributes_exactly Samples.idPasses "" None Samples.node2
           Samples.start1 Samples.after1 "k2");
    vm_compute; reflexivity.
Defined.

(** X4. For every kernel the pass compiles, with the names [_k] and
    [_k_workgroup] free in the module, the launcher and the entry
    point are created with external linkage, and the entry point carries
    no attribute at all: unlike the launcher it is not marked
    [noinline], and its two parameters are not marked [noalias]. *)
Theorem entry_point_linkage_and_attributes P Kernel SizeInfo node s s' k :
  compileKernel P Kernel SizeInfo node s = (s', Ok tt) ->
  kernelName node = Some k ->
  compiled Kernel k = true ->
  nameTaken (module s) ("_" +:+ k) = false ->
  nameTaken (module s) ("_" +:+ k +:+ "_workgroup") = false ->
  exists L W,
    getFunction (module s') ("_" +:+ k) = Some L /\
    getFunction (module s') ("_" +:+ k +:+ "_workgroup") = Some W /\
    flinkage L = ExternalLinkage /\
    flinkage W = ExternalLinkage /\
    forall i a, hasAttribute i a W = false.
Proof.
  intros H Hk Hc HfreeL HfreeW.
  destruct (compileKernel_synthesis _ _ _ _ _ _ _ H Hk Hc HfreeL)
    as (K & body & W & Hname & HK & _ & HL & HW & _ & _ & _ & Hnew).
  rewrite (Hnew HfreeW) in *.
  destruct (launcherOf_frame (module s) K) as (HnL & _ & _ & Hlink & _).
  exists (launcherOf (module s) K),
         (workgroupOf (launcherOf (module s) K) body).
  repeat split; done.
Qed.

Lemma entry_point_linkage_and_attributes_witness :
  exists L W,
    getFunction (module Samples.after1) ("_" +:+ "k2") = Some L /\
    getFunction (module Samples.after1) ("_" +:+ "k2" +:+ "_workgroup")
      = Some W /\
    flinkage L = ExternalLinkage /\
    flinkage W = ExternalLinkage /\
    forall i a, hasAttribute i a W = false.
Proof.
  apply (entry_point_linkage_and_attributes Samples.idPasses "" None
           Samples.node2 Samples.start1 Samples.after1 "k2");
    vm_compute; reflexivity.
Defined.


(** ** What the pass adds to the module and what it leaves alone *)

(** The module an iteration leaves when the two names were free. *)
Lemma compileKernel_module_free P Kernel SizeInfo node s s' k :
  compileKernel P Kernel SizeInfo node s = (s', Ok tt) ->
  kernelName node = Some k ->
  compiled Kernel k = true ->
  nameTaken (module s) ("_" +:+ k) = false ->
  nameTaken (module s) ("_" +:+ k +:+ "_workgroup") = false ->
  exists K bs1 bs2 body,
    let L := launcherOf (module s) K in
    fname K = k /\
    getFunction (module s) k = Some K /\
    module s' =
      pushFunction (workgroupOf L body)
        (pushFunction L
           (setLastUnique (LastUnique (module s))
              (replaceFunction (setBlocks bs2 (setBlocks bs1 K))
                 (replaceFunction (setBlocks bs1 K) (module s))))).
Proof.
  intros H Hk Hc HfreeL HfreeW.
  destruct (compileKernel_module _ _ _ _ _ _ _ H Hk Hc)
    as (K & bs1 & bs2 & body & HnK & HK & Hbody & Hmod).
  cbv zeta in Hmod. unfold launcherName in Hmod.
  rewrite (uniqueName_same _ _ HfreeL) in Hmod. cbn [fst snd] in Hmod.
  assert (launcherNamed ("_" +:+ k) (module s) K = launcherOf (module s) K)
    as HLeq by (unfold launcherNamed, launcherOf; by rewrite HnK).
  rewrite HLeq in Hmod.
  exists K, bs1, bs2, body. cbv zeta. do 2 (split; [done |]).
  destruct Hmod as [[_ ->] | (W0 & HW0 & _)]; [done |].
  apply nameTaken_false in HfreeW.
  change (("_" +:+ k) +:+ "_workgroup") with ("_" +:+ k +:+ "_workgroup")
    in HW0.
  congruence.
Qed.

Lemma kernelLoop_names P Kernel SizeInfo nodes s s' :
  forEach nodes (compileKernel P Kernel SizeInfo) s = (s', Ok tt) ->
  NoDup (flat_map synthesisedNames (compiledKernels Kernel nodes)) ->
  (forall name,
     In name (flat_map synthesisedNames (compiledKernels Kernel nodes)) ->
     nameTaken (module s) name = false) ->
  map fname (FunctionList (module s')) =
    map fname (FunctionList (module s)) ++
    flat_map synthesisedNames (compiledKernels Kernel nodes).
Proof.
  revert s. induction nodes as [| node nodes IH]; intros s H Hnd Hfree;
    simpl in H.
  - injection H as <-. simpl. by rewrite app_nil_r.
  - step H. match type of Hstep with _ = (_, Ok ?u) => destruct u end.
    pose proof Hstep as Hinv.
    apply compileKernel_Ok in Hinv as (K & Hname & _ & Hskip).
    rewrite (compiledKernels_cons _ _ _ _ Hname) in *.
    rewrite skipped_compiled in Hskip.
    destruct (compiled Kernel (fname K)) eqn:Hc; simpl in Hskip.
    2: { subst s0. by apply IH. }
    clear Hskip. cbn [flat_map synthesisedNames app] in *.
    assert (nameTaken (module s) ("_" +:+ fname K) = false) as HfreeL
      by (apply Hfree; by left).
    assert (nameTaken (module s) ("_" +:+ fname K +:+ "_workgroup") = false)
      as HfreeW by (apply Hfree; right; by left).
    destruct (compileKernel_module_free _ _ _ _ _ _ _ Hstep Hname Hc
                HfreeL HfreeW)
      as (K' & bs1 & bs2 & body & HnK' & _ & Hmod).
    destruct (launcherOf_frame (module s) K') as (HnL & _).
    apply NoDup_cons in Hnd as [Hn1 Hnd]. apply NoDup_cons in Hnd as [Hn2 Hnd].
    rewrite (IH s0 H Hnd).
    + rewrite Hmod, names_push, names_push.
      change (FunctionList (setLastUnique ?n ?M)) with (FunctionList M).
      rewrite !names_replace.
      unfold workgroupOf at 1. cbn [fname]. rewrite HnL, HnK'.
      by rewrite <- !app_assoc.
    + intros name Hin. rewrite Hmod.
      apply nameTaken_push.
      * apply nameTaken_push.
        -- change (nameTaken (setLastUnique ?n ?M) name)
             with (nameTaken M name).
           rewrite !nameTaken_replace. apply Hfree. by do 2 right.
        -- rewrite HnL, HnK'. intros <-. apply Hn1.
           apply list_elem_of_In. by right.
      * unfold workgroupOf. cbn [fname]. rewrite HnL, HnK'. intros <-.
        apply Hn2. by apply list_elem_of_In.
Qed.

(** X5. When none of the names of the launchers and entry points of
    the compiled kernels is in use in the module the kernel loop starts
    on, and no two of them are the same, then, when the pass returns,
    the functions of the module are, by name and in order, those the
    inlining step left, followed by two for each compiled kernel [k] in
    the order of the kernel metadata: the launcher [_k] and then the
    entry point [_k_workgroup]. *)
Theorem pass_appends_two_functions_per_kernel P Kernel ext M nodes s' b :
  runOnModule P Kernel (initState ext M) = (s', Ok b) ->
  getNamedMetadata M "opencl.kernels" = Some nodes ->
  NoDup (flat_map synthesisedNames (compiledKernels Kernel nodes)) ->
  (forall name,
     In name (flat_map synthesisedNames (compiledKernels Kernel nodes)) ->
     nameTaken (normalize P M) name = false) ->
  map fname (FunctionList (module s')) =
    map fname (FunctionList (normalize P M)) ++
    flat_map synthesisedNames (compiledKernels Kernel nodes).
Proof.
  intros H Hnodes Hnd Hfree.
  apply runOnModule_Ok in H as (_ & nodes' & Hnodes' & H).
  rewrite Hnodes in Hnodes'. injection Hnodes' as <-.
  by apply (kernelLoop_names _ _ _ _ _ _ H).
Qed.

Lemma pass_appends_two_functions_per_kernel_witness :
  map fname (FunctionList (module Samples.done2)) =
    map fname (FunctionList (normalize Samples.idPasses Samples.unit2)) ++
    flat_map synthesisedNames
      (compiledKernels "" [[MDFunction "k"]; [MDFunction "k2"]]).
Proof.
  apply (pass_appends_two_functions_per_kernel Samples.idPasses ""
           [8; 8; 1] Samples.unit2 [[MDFunction "k"]; [MDFunction "k2"]]
           Samples.done2 true).
  - vm_compute. reflexivity.
  - reflexivity.
  - apply (bool_decide_unpack _). vm_compute. exact I.
  - intros name Hin. vm_compute in Hin.
    destruct Hin as [<- | [<- | [<- | [<- | []]]]]; vm_compute; reflexivity.
Defined.

(** X6. An iteration of the kernel loop on a compiled kernel [k], with
    the names [_k] and [_k_workgroup] free in the module, changes
    nothing of the kernel but its body: name, return type, parameters,
    linkage and attributes stay. Every function of another name than
    [k], [_k] and [_k_workgroup] is in the module afterwards exactly as
    it was before, and the global variables and the named metadata of
    the module are the same. *)
Theorem kernel_loop_frame P Kernel SizeInfo node s s' k :
  compileKernel P Kernel SizeInfo node s = (s', Ok tt) ->
  kernelName node = Some k ->
  compiled Kernel k = true ->
  nameTaken (module s) ("_" +:+ k) = false ->
  nameTaken (module s) ("_" +:+ k +:+ "_workgroup") = false ->
  exists K bs,
    getFunction (module s) k = Some K /\
    getFunction (module s') k = Some (setBlocks bs K) /\
    (forall name,
       ~ In name (k :: synthesisedNames k) ->
       getFunction (module s') name = getFunction (module s) name) /\
    GlobalList (module s') = GlobalList (module s) /\
    NamedMDList (module s') = NamedMDList (module s).
Proof.
  intros H Hk Hc HfreeL HfreeW.
  destruct (compileKernel_module_free _ _ _ _ _ _ _ H Hk Hc HfreeL HfreeW)
    as (K & bs1 & bs2 & body & HnK & HK & ->).
  destruct (launcherOf_frame (module s) K) as (HnL & _).
  destruct (kernel_name_differs k) as [Hne1 Hne2].
  exists K, bs2. split; [done |]. split; [| split; [| done]].
  - rewrite getFunction_push_ne; cycle 1.
    { unfold workgroupOf. cbn [fname]. by rewrite HnL, HnK. }
    rewrite getFunction_push_ne by (by rewrite HnL, HnK).
    rewrite getFunction_setLastUnique.
    rewrite !getFunction_replace, HK. simpl.
    rewrite String.eqb_refl. simpl. by rewrite String.eqb_refl.
  - intros name Hnot. simpl in Hnot.
    rewrite getFunction_push_ne; cycle 1.
    { unfold workgroupOf. cbn [fname]. rewrite HnL, HnK. tauto. }
    rewrite getFunction_push_ne by (rewrite HnL, HnK; tauto).
    rewrite getFunction_setLastUnique.
    rewrite !getFunction_replace_ne; [done | |]; simpl; rewrite HnK; tauto.
Qed.

Lemma kernel_loop_frame_witness :
  exists K bs,
    getFunction (module Samples.start2) "k" = Some K /\
    getFunction (module Samples.after2) "k" = Some (setBlocks bs K) /\
    (forall name,
       ~ In name ("k" :: synthesisedNames "k") ->
       getFunction (module Samples.after2) name
       = getFunction (module Samples.start2) name) /\
    GlobalList (module Samples.after2) = GlobalList (module Samples.start2) /\
    NamedMDList (module Samples.after2) = NamedMDList (module Samples.start2).
Proof.
  apply (kernel_loop_frame Samples.idPasses "" None [MDFunction "k"]
           Samples.start2 Samples.after2 "k");
    vm_compute; reflexivity.
Defined.

(** X7. A module without the named metadata [opencl.kernels] makes the
    pass call a member of a null pointer. That happens after the linkage
    of the functions was changed, the inliner was run and the header file
    was opened: the module is then the normalised one and the header is
    empty, while [LocalSize] is untouched. A missing
    [opencl.kernel_wg_size_info], in contrast, is tested for. *)
Theorem missing_kernel_metadata P Kernel ext M :
  getNamedMetadata M "opencl.kernels" = None ->
  runOnModule P Kernel (initState ext M)
  = (mkState ext "" (normalize P M) [], Err (NullMetadata "opencl.kernels")).
Proof.
  intros Hnone. by rewrite runOnModule_eq, Hnone.
Qed.

Lemma missing_kernel_metadata_witness :
  runOnModule Samples.idPasses "" (initState [8; 8; 1] MoreSamples.noKernels)
  = (mkState [8; 8; 1] "" (normalize Samples.idPasses MoreSamples.noKernels) [],
     Err (NullMetadata "opencl.kernels")).
Proof.
  apply (missing_kernel_metadata Samples.idPasses "" [8; 8; 1]
           MoreSamples.noKernels).
  reflexivity.
Defined.

Lemma requiredSize_last k pre node post sz :
  nodeSize k node = Some sz ->
  Forall (fun n => nodeSize k n = None) post ->
  requiredSize k (pre ++ node :: post) = Some sz.
Proof.
  intros Hnode Hpost.
  assert (requiredSize k post = None) as Hnone.
  { induction Hpost as [| n post Hn _ IH]; [done |]. simpl. by rewrite IH. }
  induction pre as [| n pre IH]; simpl.
  - by rewrite Hnone.
  - by rewrite IH.
Qed.

(** X8. When several nodes of the size metadata name the kernel, the
    override loop goes through all of them and the last one decides:
    after the loop the three leading entries of [LocalSize] are the
    operands of the last node that names the kernel, and the nodes for
    other kernels have no effect. *)
Theorem last_size_node_wins K pre node post s s' sz :
  forEach (pre ++ node :: post) (overrideLocalSize K) s = (s', Ok tt) ->
  nodeSize (fname K) node = Some sz ->
  Forall (fun n => nodeSize (fname K) n = None) post ->
  LocalSize s' = withSize sz (LocalSize s) /\
  out s' = out s /\ module s' = module s /\ WR_calls s' = WR_calls s.
Proof.
  intros H Hnode Hpost.
  apply forEach_override_Ok in H as (Ho & Hm & Hc & Hl).
  rewrite (requiredSize_last _ _ _ _ _ Hnode Hpost) in Hl. auto.
Qed.

Lemma last_size_node_wins_witness :
  LocalSize MoreSamples.sizeStateAfter
    = withSize (16, 1, 1) (LocalSize MoreSamples.sizeState) /\
  out MoreSamples.sizeStateAfter = out MoreSamples.sizeState /\
  module MoreSamples.sizeStateAfter = module MoreSamples.sizeState /\
  WR_calls MoreSamples.sizeStateAfter = WR_calls MoreSamples.sizeState.
Proof.
  apply (last_size_node_wins Samples.k2 MoreSamples.sizesBefore
           (Samples.sizeNode "k2" 16 1 1) MoreSamples.sizesAfter
           MoreSamples.sizeState MoreSamples.sizeStateAfter (16, 1, 1)).
  - vm_compute. reflexivity.
  - reflexivity.
  - repeat constructor.
Defined.

(** ** The synthesised blocks are well formed *)

(** X9. For every kernel the pass compiles, with the names [_k] and
    [_k_workgroup] free in the module, the blocks of the launcher
    and of the entry point are well formed: every instruction uses only
    arguments the function has and results of instructions before it,
    and the block ends in its only [ret]. Each block holds one call: the
    launcher calls the kernel with as many arguments as the kernel has
    parameters, the entry point calls the launcher with as many
    arguments as the launcher has parameters. *)
Theorem synthesised_blocks_well_formed P Kernel SizeInfo node s s' k :
  compileKernel P Kernel SizeInfo node s = (s', Ok tt) ->
  kernelName node = Some k ->
  compiled Kernel k = true ->
  nameTaken (module s) ("_" +:+ k) = false ->
  nameTaken (module s) ("_" +:+ k +:+ "_workgroup") = false ->
  exists K L W bl bw callL callW,
    getFunction (module s) k = Some K /\
    getFunction (module s') ("_" +:+ k) = Some L /\
    getFunction (module s') ("_" +:+ k +:+ "_workgroup") = Some W /\
    fblocks L = [bl] /\ fblocks W = [bw] /\
    wellFormedBlock (length (fparams L)) bl = true /\
    wellFormedBlock (length (fparams W)) bw = true /\
    callsOf bl = [(k, callL)] /\ length callL = length (fparams K) /\
    callsOf bw = [("_" +:+ k, callW)] /\ length callW = length (fparams L).
Proof.
  intros H Hk Hc HfreeL HfreeW.
  destruct (compileKernel_synthesis _ _ _ _ _ _ _ H Hk Hc HfreeL)
    as (K & body & W & Hname & HK & Hbody & HL & HW & _ & _ & _ & Hnew).
  rewrite (Hnew HfreeW) in *.
  destruct (launcherOf_frame (module s) K) as (HnL & _ & HpL & _ & HbL).
  destruct (launcherBody_wellFormed (module s) K) as [HwfL HcallL].
  destruct (workgroupBody_wellFormed _ _ _ HpL Hbody)
    as (HwfW & callW & HcallW & HlenW).
  exists K, (launcherOf (module s) K),
         (workgroupOf (launcherOf (module s) K) body),
         (launcherBody (module s) K), body,
         (map Arg (seq 0 (length (fparams K)))), callW.
  repeat split; try done.
  - by rewrite HpL, length_app.
  - by rewrite HcallL, Hname.
  - by rewrite length_map, length_seq.
  - by rewrite HcallW, HnL, Hname.
Qed.

Lemma synthesised_blocks_well_formed_witness :
  exists K L W bl bw callL callW,
    getFunction (module Samples.start2) "k" = Some K /\
    getFunction (module Samples.after2) ("_" +:+ "k") = Some L /\
    getFunction (module Samples.after2) ("_" +:+ "k" +:+ "_workgroup")
      = Some W /\
    fblocks L = [bl] /\ fblocks W = [bw] /\
    wellFormedBlock (length (fparams L)) bl = true /\
    wellFormedBlock (length (fparams W)) bw = true /\
    callsOf bl = [("k", callL)] /\ length callL = length (fparams K) /\
    callsOf bw = [("_" +:+ "k", callW)] /\ length callW = length (fparams L).
Proof.
  apply (synthesised_blocks_well_formed Samples.idPasses "" None
           [MDFunction "k"] Samples.start2 Samples.after2 "k");
    vm_compute; reflexivity.
Defined.

(** ** A function pass that does not return *)

(** X11. When barrier tail replication does not return for a compiled
    kernel, the pass stops there: the kernel's pair of header lines is
    already written, [LocalSize] and the record of replication runs are
    as they were, and no launcher and no entry point are added. The
    module has the functions it had, by name and in order; the kernel
    has the blocks the pass had given it when it stopped, and every
    other function is as it was before. *)
Theorem failed_barrier_replication P Kernel SizeInfo node s k K :
  kernelName node = Some k ->
  getFunction (module s) k = Some K ->
  compiled Kernel k = true ->
  BTR_runOnFunction P K = None ->
  exists s',
    compileKernel P Kernel SizeInfo node s = (s', Err (PassFailed k)) /\
    out s' = out s +:+ headerLines k /\
    LocalSize s' = LocalSize s /\
    WR_calls s' = WR_calls s /\
    module s'
    = replaceFunction (setBlocks (BTR_abandoned P K) K) (module s) /\
    getFunction (module s') k = Some (setBlocks (BTR_abandoned P K) K) /\
    (forall name, name <> k ->
       getFunction (module s') name = getFunction (module s) name) /\
    map fname (FunctionList (module s')) = map fname (FunctionList (module s)).
Proof.
  intros Hk HK Hc Hbtr.
  pose proof (getFunction_name _ _ _ HK) as Hname.
  destruct node as [| [name | |] node]; simpl in Hk; try discriminate.
  injection Hk as ->.
  unfold compileKernel.
  unfold bind at 1. simpl. unfold bind at 1. simpl. rewrite HK. simpl.
  rewrite skipped_compiled, Hname, Hc. simpl.
  unfold bind at 1. simpl. unfold bind at 1. simpl.
  unfold bind at 1. unfold runFunctionPass at 1. rewrite Hbtr.
  cbn [LocalSize out module WR_calls]. rewrite Hname.
  eexists. split; [reflexivity |]. cbn [LocalSize out module WR_calls].
  repeat split.
  - unfold headerLines. by rewrite !append_assoc.
  - rewrite <- Hname at 1.
    change (fname K) with (fname (setBlocks (BTR_abandoned P K) K)).
    apply (getFunction_replace_same _ K). simpl. by rewrite Hname.
  - intros name Hne. apply getFunction_replace_ne. simpl. congruence.
  - apply names_replace.
Qed.

Lemma failed_barrier_replication_witness :
  exists s',
    compileKernel Samples.failingBTR "" None Samples.node2 Samples.start1
    = (s', Err (PassFailed "k2")) /\
    out s' = out Samples.start1 +:+ headerLines "k2" /\
    LocalSize s' = LocalSize Samples.start1 /\
    WR_calls s' = WR_calls Samples.start1 /\
    module s'
    = replaceFunction
        (setBlocks (BTR_abandoned Samples.failingBTR Samples.k2) Samples.k2)
        (module Samples.start1) /\
    getFunction (module s') "k2"
    = Some (setBlocks (BTR_abandoned Samples.failingBTR Samples.k2)
              Samples.k2) /\
    (forall name, name <> "k2" ->
       getFunction (module s') name
       = getFunction (module Samples.start1) name) /\
    map fname (FunctionList (module s'))
    = map fname (FunctionList (module Samples.start1)).
Proof.
  apply (failed_barrier_replication Samples.failingBTR "" None Samples.node2
           Samples.start1 "k2" Samples.k2);
    reflexivity.
Defined.

(** X12. When work-item replication does not return for a compiled
    kernel, the pass stops with [LocalSize] still holding the size the
    kernel was to be replicated with: the three saved entries are not
    written back. The header has the kernel's pair of lines; no launcher
    and no entry point are added. In the module the kernel has the
    blocks work-item replication had given it when it stopped, on top of
    what barrier tail replication did. *)
Theorem failed_replication_keeps_override P Kernel SizeInfo node s k K bs1 :
  kernelName node = Some k ->
  getFunction (module s) k = Some K ->
  compiled Kernel k = true ->
  (3 <= length (LocalSize s))%nat ->
  sizeInfoOk k SizeInfo = true ->
  BTR_runOnFunction P K = Some bs1 ->
  WR_runOnFunction P (replaceFunction (setBlocks bs1 K) (module s))
    (sizeFor SizeInfo (LocalSize s) k) (setBlocks bs1 K) = None ->
  let K1 := setBlocks bs1 K in
  let Mbtr := replaceFunction K1 (module s) in
  let size := sizeFor SizeInfo (LocalSize s) k in
  compileKernel P Kernel SizeInfo node s
  = (mkState size
       (out s +:+ headerLines k)
       (replaceFunction (setBlocks (WR_abandoned P Mbtr size K1) K1) Mbtr)
       (WR_calls s ++ [(k, size)]),
     Err (PassFailed k)).
Proof.
  intros Hk HK Hc Hlen Hsizes Hbtr Hwr K1 Mbtr size.
  pose proof (getFunction_name _ _ _ HK) as Hname.
  destruct node as [| [name | |] node]; simpl in Hk; try discriminate.
  injection Hk as ->.
  unfold compileKernel.
  unfold bind at 1. simpl. unfold bind at 1. simpl. rewrite HK. simpl.
  rewrite skipped_compiled, Hname, Hc. simpl.
  unfold bind at 1. simpl. unfold bind at 1. simpl.
  unfold bind at 1. unfold runFunctionPass at 1. rewrite Hbtr.
  cbn [LocalSize out module WR_calls].
  assert (exists x0 x1 x2 rest, LocalSize s = x0 :: x1 :: x2 :: rest)
    as (x0 & x1 & x2 & rest & Hls).
  { destruct (LocalSize s) as [| x0 [| x1 [| x2 rest]]];
      simpl in Hlen; try lia. eauto. }
  do 3 (unfold bind at 1; unfold readLocalSize at 1;
        cbn [LocalSize out module WR_calls]; rewrite ?Hls; simpl).
  rewrite <- Hls.
  set (s1 := mkState _ _ _ _).
  assert (exists s0,
    match SizeInfo with
    | Some nodes => forEach nodes (overrideLocalSize (setBlocks bs1 K))
    | None => ret tt
    end s1 = (s0, Ok tt) /\
    out s0 = out s1 /\ module s0 = module s1 /\ WR_calls s0 = WR_calls s1 /\
    LocalSize s0 = sizeFor SizeInfo (LocalSize s) k)
    as (s0 & Hloop & Ho & Hm & Hcs & Hl).
  { unfold sizeFor. destruct SizeInfo as [nodes |].
    - destruct (forEach_override_returns (setBlocks bs1 K) nodes s1)
        as (s0 & Hs0).
      + simpl. lia.
      + simpl. rewrite Hname. exact Hsizes.
      + exists s0. split; [done |].
        apply forEach_override_Ok in Hs0 as (? & ? & ? & Hl).
        repeat split; try done.
        rewrite Hl. simpl. by rewrite Hname.
    - exists s1. by repeat split. }
  unfold bind at 1. rewrite Hloop.
  unfold runWR. unfold bind at 1. unfold bind at 1. simpl.
  unfold runFunctionPass at 1. cbn [LocalSize out module WR_calls].
  rewrite Hm, Hl. subst s1. cbn [LocalSize out module WR_calls] in *.
  rewrite Hname, Hwr. cbn [fname setBlocks]. rewrite Hname, Hcs, Ho.
  cbn [out WR_calls].
  unfold headerLines. by rewrite !append_assoc.
Qed.

Lemma failed_replication_keeps_override_witness :
  compileKernel Samples.failingWR "" Samples.sizeInfo2 [MDFunction "k"]
    Samples.start2
  = (mkState MoreSamples.sizeOfK
       (out Samples.start2 +:+ headerLines "k")
       (replaceFunction
          (setBlocks
             (WR_abandoned Samples.failingWR MoreSamples.unitAfterBTR
                MoreSamples.sizeOfK MoreSamples.kAfterBTR)
             MoreSamples.kAfterBTR)
          MoreSamples.unitAfterBTR)
       (WR_calls Samples.start2 ++ [("k", MoreSamples.sizeOfK)]),
     Err (PassFailed "k")).
Proof.
  apply (failed_replication_keeps_override Samples.failingWR ""
           Samples.sizeInfo2 [MDFunction "k"] Samples.start2 "k" Samples.k
           (fblocks Samples.k));
    vm_compute; (reflexivity || lia).
Defined.

(** The size left behind in the sample is the metadata's, not the
    external one, and the kernel has the block the failed pass put in
    front. *)
Example size_after_failure :
  LocalSize MoreSamples.afterFailure = [4; 4; 1] /\
  LocalSize Samples.start2 = [8; 8; 1] /\
  fblocks <$> getFunction (module MoreSamples.afterFailure) "k"
  = Some ([Other "br" []] :: fblocks Samples.k).
Proof. vm_compute. repeat split; reflexivity. Qed.

(** * Properties of the matrix benchmark *)

Module Matrix1Proofs.

Import Matrix1.

(** ** The minimum run time *)

Lemma fold_minTimeStep events m0 :
  let m := fold_left minTimeStep events m0 in
  m <= m0 /\
  (forall s e, In (s, e) events -> m <= u64 (e - s)) /\
  (m = m0 \/ exists s e, In (s, e) events /\ m = u64 (e - s)).
Proof.
  revert m0. induction events as [| [s e] events IH]; intros m0; simpl.
  - repeat split; [lia | tauto | by left].
  - destruct (IH (minTimeStep m0 (s, e))) as (Hle & Hall & Hatt).
    unfold minTimeStep in *.
    destruct (Z.ltb_spec (u64 (e - s)) m0) as [Hlt | Hge].
    + repeat split.
      * lia.
      * intros s' e' [[= <- <-] | Hin]; [lia | by apply Hall].
      * right. destruct Hatt as [-> | (s' & e' & Hin & ->)]; eauto 6.
    + repeat split.
      * lia.
      * intros s' e' [[= <- <-] | Hin]; [lia | by apply Hall].
      * destruct Hatt as [-> | (s' & e' & Hin & ->)]; [by left |].
        right. eauto 6.
Qed.

(** X13. The minimum the profiling loop of [exec_matrix_kernel] finds is
    the least of 2^30 ns and the durations [endTime - startTime] of the
    events, taken as unsigned 64-bit differences: it never exceeds 2^30,
    it is at most every duration, and it is 2^30 or one of the
    durations. A kernel that always runs longer than 2^30 ns is reported
    with 2^30 ns. *)
Theorem minTime_is_capped_minimum (events : list (Z * Z)) :
  minTimeOf events <= 2 ^ 30 /\
  (forall s e, In (s, e) events -> minTimeOf events <= u64 (e - s)) /\
  (minTimeOf events = 2 ^ 30 \/
   exists s e, In (s, e) events /\ minTimeOf events = u64 (e - s)) /\
  ((forall s e, In (s, e) events -> 2 ^ 30 <= u64 (e - s)) ->
   minTimeOf events = 2 ^ 30).
Proof.
  unfold minTimeOf. change (Z.shiftl 1 30) with (2 ^ 30).
  destruct (fold_minTimeStep events (2 ^ 30)) as (Hle & Hall & Hatt).
  cbv zeta in *. repeat split; try done.
  intros Hlong. destruct Hatt as [-> | (s & e & Hin & Heq)]; [done |].
  specialize (Hlong s e Hin). lia.
Qed.

(** ** Command line options *)

Lemma optionLoop_dashes opts rest f :
  Forall (fun a => charIs a 0 "-" = true) opts ->
  optionLoop (opts ++ rest) f
  = optionLoop rest (fold_left (fun f a => setFlags a f) opts f).
Proof.
  intros Hd. revert f. induction Hd as [| a opts Ha _ IH]; intros f; [done |].
  simpl. by rewrite Ha, IH.
Qed.

Lemma setFlags_fields a f :
  spir (setFlags a f) = (if charIs a 1 "s" then 1 else spir f) /\
  spirv (setFlags a f) = (if charIs a 1 "v" then 1 else spirv f) /\
  poclbin (setFlags a f) = (if charIs a 1 "b" then 1 else poclbin f) /\
  use_locals (setFlags a f) = (if charIs a 1 "l" then 1 else use_locals f) /\
  use_2d_reg_block (setFlags a f)
    = (if charIs a 1 "r" then 1 else use_2d_reg_block f) /\
  use_fma (setFlags a f) = (if charIs a 1 "f" then 1 else use_fma f) /\
  use_svm (setFlags a f) = (if charIs a 1 "M" then 1 else use_svm f).
Proof.
  unfold setFlags, setIf.
  destruct (charIs a 1 "s"), (charIs a 1 "v"), (charIs a 1 "b"),
           (charIs a 1 "l"), (charIs a 1 "r"), (charIs a 1 "f"),
           (charIs a 1 "M"); repeat split; reflexivity.
Qed.

Lemma fold_setFlags opts f :
  let f' := fold_left (fun f a => setFlags a f) opts f in
  spir f' = (if has "s" opts then 1 else spir f) /\
  spirv f' = (if has "v" opts then 1 else spirv f) /\
  poclbin f' = (if has "b" opts then 1 else poclbin f) /\
  use_locals f' = (if has "l" opts then 1 else use_locals f) /\
  use_2d_reg_block f' = (if has "r" opts then 1 else use_2d_reg_block f) /\
  use_fma f' = (if has "f" opts then 1 else use_fma f) /\
  use_svm f' = (if has "M" opts then 1 else use_svm f).
Proof.
  revert f. induction opts as [| a opts IH]; intros f; [done |].
  cbv zeta. cbn [fold_left]. destruct (IH (setFlags a f)) as
    (H1 & H2 & H3 & H4 & H5 & H6 & H7).
  destruct (setFlags_fields a f) as (S1 & S2 & S3 & S4 & S5 & S6 & S7).
  cbv zeta in *. rewrite H1, H2, H3, H4, H5, H6, H7.
  rewrite S1, S2, S3, S4, S5, S6, S7.
  unfold has. cbn [existsb].
  repeat split;
    match goal with
    | |- context [charIs a 1 ?c || existsb ?P opts] =>
        destruct (charIs a 1 c), (existsb P opts); reflexivity
    end.
Qed.

Lemma has_same_set c (opts1 opts2 : list string) :
  (forall a, In a opts1 <-> In a opts2) -> has c opts1 = has c opts2.
Proof.
  intros Hset. unfold has.
  destruct (existsb _ opts1) eqn:H1, (existsb _ opts2) eqn:H2; try done.
  - apply existsb_exists in H1 as (a & Hin & Ha).
    assert (existsb (fun a => charIs a 1 c) opts2 = true) as Hc
      by (apply existsb_exists; exists a; split; [by apply Hset | done]).
    congruence.
  - apply existsb_exists in H2 as (a & Hin & Ha).
    assert (existsb (fun a => charIs a 1 c) opts1 = true) as Hc
      by (apply existsb_exists; exists a; split; [by apply Hset | done]).
    congruence.
Qed.

Lemma Flags_eq (f g : Flags) :
  spir f = spir g -> spirv f = spirv g -> poclbin f = poclbin g ->
  use_locals f = use_locals g -> use_2d_reg_block f = use_2d_reg_block g ->
  use_fma f = use_fma g -> use_svm f = use_svm g -> f = g.
Proof. destruct f, g. simpl. congruence. Qed.

(** X14. The flags the option loop of [main] sets depend only on which
    options are given: two runs of options that hold the same arguments,
    in whatever order and however often repeated, followed by the same
    remaining arguments, are parsed to the same result. *)
Theorem options_order_irrelevant (opts1 opts2 rest : list string) :
  Forall (fun a => charIs a 0 "-" = true) opts1 ->
  Forall (fun a => charIs a 0 "-" = true) opts2 ->
  (forall a, In a opts1 <-> In a opts2) ->
  parseOptions (opts1 ++ rest) = parseOptions (opts2 ++ rest).
Proof.
  intros Hd1 Hd2 Hset. unfold parseOptions.
  rewrite !optionLoop_dashes by done.
  assert (fold_left (fun f a => setFlags a f) opts1 noFlags
          = fold_left (fun f a => setFlags a f) opts2 noFlags) as ->; [| done].
  destruct (fold_setFlags opts1 noFlags) as (H1 & H2 & H3 & H4 & H5 & H6 & H7).
  destruct (fold_setFlags opts2 noFlags) as (G1 & G2 & G3 & G4 & G5 & G6 & G7).
  cbv zeta in *.
  apply Flags_eq;
    [rewrite H1, G1 | rewrite H2, G2 | rewrite H3, G3 | rewrite H4, G4
     | rewrite H5, G5 | rewrite H6, G6 | rewrite H7, G7];
    by rewrite (has_same_set _ _ _ Hset).
Qed.

Lemma options_order_irrelevant_witness :
  parseOptions (optionsA ++ ["matrix1.spir"])
  = parseOptions (optionsB ++ ["matrix1.spir"]).
Proof.
  apply (options_order_irrelevant optionsA optionsB ["matrix1.spir"]).
  - repeat constructor.
  - repeat constructor.
  - intros a. unfold optionsA, optionsB. simpl. tauto.
Defined.

Lemma optionLoop_stops pre p tail f :
  charIs p 0 "-" = false ->
  exists g rest rest',
    optionLoop (pre ++ p :: tail) f = (g, rest) /\
    optionLoop (pre ++ [p]) f = (g, rest') /\
    exists q, hd_error rest = Some q /\ hd_error rest' = Some q.
Proof.
  intros Hp. revert f. induction pre as [| a pre IH]; intros f; simpl.
  - rewrite Hp. eexists _, _, _. repeat split. by exists p.
  - destruct (charIs a 0 "-"); [apply IH |].
    eexists _, _, _. repeat split. by exists a.
Qed.

(** X15. The option scan of [main] ends at the first argument that does
    not start with a dash, which becomes the binary path: whatever
    follows that argument on the command line, options included, has no
    effect on the result. *)
Theorem arguments_after_path_ignored (pre : list string) (p : string)
    (tail : list string) :
  charIs p 0 "-" = false ->
  parseOptions (pre ++ p :: tail) = parseOptions (pre ++ [p]).
Proof.
  intros Hp. unfold parseOptions.
  destruct (optionLoop_stops pre p tail noFlags Hp)
    as (g & rest & rest' & -> & -> & q & Hq & Hq').
  destruct rest as [| r rest], rest' as [| r' rest']; try discriminate.
  injection Hq as ->. injection Hq' as ->. reflexivity.
Qed.

Lemma arguments_after_path_ignored_witness :
  parseOptions (["-s"] ++ "matrix1.spir" :: ["-l"; "-M"])
  = parseOptions (["-s"] ++ ["matrix1.spir"]).
Proof.
  apply (arguments_after_path_ignored ["-s"] "matrix1.spir" ["-l"; "-M"]).
  reflexivity.
Defined.

(** ** The local work-group size *)

Lemma while_more fuel fuel' cond step x r :
  (fuel <= fuel')%nat ->
  while fuel cond step x = Some r ->
  while fuel' cond step x = Some r.
Proof.
  revert fuel' x. induction fuel as [| fuel IH]; intros fuel' x Hle H;
    [discriminate |].
  destruct fuel' as [| fuel']; [lia |]. simpl in *.
  destruct (cond x); [| done]. apply IH; [lia | done].
Qed.

Lemma allFrom_spec n z P :
  allFrom n z P = true ->
  forall k, z <= k < z + Z.of_nat n -> P k = true.
Proof.
  revert z. induction n as [| n IH]; intros z H k Hk; [lia |].
  simpl in H. apply andb_true_iff in H as [Hz H].
  destruct (Z.eq_dec k z) as [-> | Hne]; [done |].
  apply (IH (z + 1) H). lia.
Qed.

Lemma simpleLoops_all :
  allFrom (Z.to_nat 65536) 1 (fun m => largestSquare m (simpleLoops 10 m))
  = true.
Proof. vm_compute. reflexivity. Qed.

Lemma simpleLoops_more fuel m r :
  (10 <= fuel)%nat -> simpleLoops 10 m = Some r -> simpleLoops fuel m = Some r.
Proof.
  intros Hf. unfold simpleLoops, bindO.
  destruct (while 10 _ shl32 1) as [lw |] eqn:H1; [| discriminate].
  rewrite (while_more _ _ _ _ _ _ Hf H1). intros H2.
  by apply (while_more 10).
Qed.

(** X16. For the simplest kernel, with a device that allows work-groups
    of at least one work-item and a matrix size the range test accepts
    (64..65536), the loops of [main] that pick [local_wg] end (ten
    iterations each are enough) with a power of two 2^e, e <= 8, whose
    square is at most the smaller of the maximal work-group size and the
    matrix size, while the square of its double exceeds it; [TSM] and
    [TSK] stay 0 and the assertion [local_wg > 0] holds. *)
Theorem autodetect_simple (fuel : nat)
    (max_wg_size matrix_size local_mem_size : Z) :
  (10 <= fuel)%nat ->
  1 <= max_wg_size ->
  64 <= matrix_size <= 65536 ->
  exists e,
    0 <= e <= 8 /\
    autodetect fuel false false max_wg_size matrix_size local_mem_size
      = Some (LocalWG (2 ^ e) 0 0) /\
    2 ^ e * 2 ^ e <= Z.min max_wg_size matrix_size
      < 2 ^ (e + 1) * 2 ^ (e + 1).
Proof.
  intros Hf Hmax Hms.
  set (m := Z.min max_wg_size matrix_size).
  assert (1 <= m <= 65536) as Hm by (unfold m; lia).
  pose proof (allFrom_spec _ _ _ simpleLoops_all m
                ltac:(rewrite Z2Nat.id; lia)) as Hok.
  cbv beta in Hok. unfold largestSquare in Hok.
  destruct (simpleLoops 10 m) as [lw |] eqn:Hloops; [| discriminate].
  apply andb_true_iff in Hok as [Hok Hlt].
  apply andb_true_iff in Hok as [Hpow Hle].
  apply existsb_exists in Hpow as (e & He & Heq).
  apply Z.eqb_eq in Heq. apply Z.leb_le in Hle. apply Z.ltb_lt in Hlt.
  exists e. split.
  { simpl in He. lia. }
  assert (0 < lw) as Hpos by (subst lw; apply Z.pow_pos_nonneg; simpl in He; lia).
  split.
  - unfold autodetect. cbn [negb andb].
    assert (u64 matrix_size = matrix_size) as ->
      by (unfold u64; apply Z.mod_small; lia).
    assert ((if Z.ltb max_wg_size matrix_size then max_wg_size
             else matrix_size) = m) as ->.
    { unfold m. destruct (Z.ltb_spec max_wg_size matrix_size); lia. }
    fold (simpleLoops fuel m).
    rewrite (simpleLoops_more fuel m lw Hf Hloops). cbn [bindO].
    assert (Z.gtb lw 0 = true) as -> by (apply Z.gtb_lt; lia).
    by rewrite Heq.
  - rewrite Z.pow_add_r by (simpl in He; lia).
    rewrite <- Heq. fold m. lia.
Qed.

Lemma autodetect_simple_witness :
  exists e,
    0 <= e <= 8 /\
    autodetect 10 false false 4096 1024 32768 = Some (LocalWG (2 ^ e) 0 0) /\
    2 ^ e * 2 ^ e <= Z.min 4096 1024 < 2 ^ (e + 1) * 2 ^ (e + 1).
Proof.
  apply (autodetect_simple 10 4096 1024 32768); lia.
Defined.

End Matrix1Proofs.
